(** * Llama 3 reference implementation: generation engine

    Shallow embedding of [models/llama3/reference_impl/generation.py]:
    the nucleus sampler [sample_top_p], the decode loop [Llama.generate]
    and the two completion adapters [text_completion] and
    [chat_completion].

    Conventions of the embedding.
    - Token ids are [Z]; positions and lengths are [nat].  The budget
      [max_gen_len] is a [nat] in [generate]; [Llama_generate] is the
      same call for any Python integer, with the checks torch makes
      when the token buffer is set up.
    - Logits and temperatures are exact rationals [Q] (compared with
      [Qeq]).  The sampler is given twice: in exact arithmetic, as the
      engine calls it, and in binary32, the arithmetic of the source
      (module [F32]).
    - The batch size of the source is the constant [bsz = 1], so every
      tensor of shape [(bsz, n)] is a list of length [n].
    - The collaborators that live outside the module (the transformer
      forward pass, the tokenizer, the chat formatter, [torch.softmax],
      [F.cross_entropy] and the random draw of [torch.multinomial]) are
      fields of records the engine is given: every theorem holds for all
      of them. *)

From Stdlib Require Import QArith Lqa Permutation Sorted SpecFloat.
From stdpp Require Import base list strings.

Set Default Proof Using "Type".

(** ** Tensor primitives used by the source *)

Module Tensor.

(** [a > b] on scalars. *)
Definition Qgtb (a b : Q) : bool := negb (Qle_bool a b).

(** [t.sum(dim=-1)]. *)
Definition sum (l : list Q) : Q := foldr Qplus 0%Q l.

(** [torch.cumsum(t, dim=-1)]: running totals, the entry included. *)
Fixpoint cumsum_from (acc : Q) (l : list Q) : list Q :=
  match l with
  | [] => []
  | x :: t => (acc + x)%Q :: cumsum_from (acc + x)%Q t
  end.

Definition cumsum (l : list Q) : list Q := cumsum_from 0%Q l.

(** [torch.sort(t, dim=-1, descending=True)] returns the sorted values
    and, for each of them, the index it had in [t].  The sort is an
    insertion sort on (value, index) pairs; equal values keep their
    index order. *)
Fixpoint insert_desc (x : Q * nat) (l : list (Q * nat)) : list (Q * nat) :=
  match l with
  | [] => [x]
  | y :: l' =>
      if Qle_bool (fst y) (fst x) then x :: y :: l'
      else y :: insert_desc x l'
  end.

Definition sort_pairs (l : list (Q * nat)) : list (Q * nat) :=
  foldr insert_desc [] l.

Definition indexed (t : list Q) : list (Q * nat) :=
  zip t (seq 0 (length t)).

Definition sort_desc (t : list Q) : list Q * list nat :=
  let s := sort_pairs (indexed t) in (s.*1, s.*2).

(** [t[mask] = v]. *)
Definition masked_fill (t : list Q) (mask : list bool) (v : Q) : list Q :=
  zip_with (fun x (m : bool) => if m then v else x) t mask.

(** [t.div_(d)] with a scalar [d] (the [keepdim] sum of the row). *)
Definition div (t : list Q) (d : Q) : list Q :=
  (fun x => (x / d)%Q) <$> t.

(** [torch.gather(idx, -1, i)] on one row. *)
Definition gather (idx : list nat) (i : nat) : option nat := idx !! i.

(** [torch.argmax(t, dim=-1)]: the first position holding the largest
    value; an empty row has no arg-max. *)
Fixpoint argmax_from (best : nat) (bv : Q) (i : nat) (l : list Q) : nat :=
  match l with
  | [] => best
  | x :: t =>
      if Qgtb x bv then argmax_from i x (S i) t
      else argmax_from best bv (S i) t
  end.

Definition argmax (l : list Q) : option nat :=
  match l with
  | [] => None
  | x :: t => Some (argmax_from 0 x 1 t)
  end.

(** [torch.full((1, n), v)]. *)
Definition full (n : nat) (v : Z) : list Z := replicate n v.

(** [t[:k] = src], for a source that fits. *)
Definition set_prefix (t src : list Z) : list Z :=
  src ++ drop (length src) t.

(** [t[a:b]]. *)
Definition slice {A} (t : list A) (a b : nat) : list A :=
  take (b - a) (drop a t).

(** [t[a:b] = src], for a source of [b - a] entries. *)
Definition set_slice {A} (t : list A) (a b : nat) (src : list A) : list A :=
  take a t ++ take (b - a) src ++ drop b t.

End Tensor.

(** ** The nucleus sampler *)

Section Sampler.

(** The state of the random generator and the draw of
    [torch.multinomial(weights, num_samples=1)]: an index, or no index
    when the draw is refused, and the generator state after it. *)
Context {rng : Type}.
Variable multinomial : list Q -> rng -> option nat * rng.

(** [mask = probs_sum - probs_sort > p]. *)
Definition top_p_mask (probs_sort : list Q) (p : Q) : list bool :=
  zip_with (fun s x => Tensor.Qgtb (s - x)%Q p)
           (Tensor.cumsum probs_sort) probs_sort.

(** The weights handed to the draw: excluded entries zeroed, the rest
    divided by what is left. *)
Definition top_p_weights (probs_sort : list Q) (p : Q) : list Q :=
  let kept := Tensor.masked_fill probs_sort (top_p_mask probs_sort p) 0%Q in
  Tensor.div kept (Tensor.sum kept).

Definition sample_top_p (probs : list Q) (p : Q) (g : rng)
  : option nat * rng :=
  let '(probs_sort, probs_idx) := Tensor.sort_desc probs in
  let probs_sum := Tensor.cumsum probs_sort in
  let mask := zip_with (fun s x => Tensor.Qgtb (s - x)%Q p)
                       probs_sum probs_sort in
  let probs_sort := Tensor.masked_fill probs_sort mask 0%Q in
  let probs_sort := Tensor.div probs_sort (Tensor.sum probs_sort) in
  let '(next_token, g) := multinomial probs_sort g in
  (next_token ≫= Tensor.gather probs_idx, g).

End Sampler.

(** ** The sampler in the arithmetic of the source

    [probs] is a float32 tensor.  The element-wise operations of
    [sample_top_p] on it (the difference, the comparison with [p], the
    division) are the IEEE 754 binary32 operations (24 bits of
    precision, round to nearest, ties to even), taken from the
    specification of floating-point arithmetic in the library.  The
    threshold [p] is the float32 that torch converts the Python number
    to before it compares.  The two reductions, [torch.cumsum] and
    [torch.sum], answer float32 values; in which order and in which
    precision torch accumulates before it stores them is not fixed by
    the source, so they are parameters of the sampler ([Reductions]),
    given below in two ways: accumulated in float32 from left to right
    ([narrow]), and accumulated without rounding and rounded when
    stored ([wide]).  The sort is the insertion sort of
    [Tensor.sort_desc] with the float comparison; where torch places
    NaN entries is not modelled, the statements about the sampler are
    for rows without NaN.  The definitions of the section above are the
    same sampler in exact arithmetic. *)

Module F32.

Definition prec : Z := 24.
Definition emax : Z := 128.

(** The float nearest to [m * 2^e]. *)
Definition of_Z (m e : Z) : spec_float :=
  binary_normalize prec emax m e false.

Definition zero : spec_float := S754_zero false.

Definition fadd : spec_float -> spec_float -> spec_float := SFadd prec emax.
Definition fsub : spec_float -> spec_float -> spec_float := SFsub prec emax.
Definition fdiv : spec_float -> spec_float -> spec_float := SFdiv prec emax.

(** [a > b]; false when one of them is NaN. *)
Definition gtb (a b : spec_float) : bool := SFltb b a.

(** [a >= 0]: a number that is not negative (and not NaN). *)
Definition nonneg (a : spec_float) : Prop := SFleb zero a = true.

(** A binary32 number: a zero, or a finite float whose mantissa and
    exponent are those of the format. *)
Definition number (x : spec_float) : bool :=
  match x with
  | S754_zero _ => true
  | S754_finite _ m e => bounded prec emax m e
  | _ => false
  end.

(** The value of a number as a multiple of [2^-149], the smallest step
    of the format, and as a rational. *)
Definition scaled (x : spec_float) : Z :=
  match x with
  | S754_finite s m e => (cond_Zopp s (Zpos m) * 2 ^ (e + 149))%Z
  | _ => 0%Z
  end.

Definition to_Q (x : spec_float) : Q := scaled x # 2 ^ 149.

(** [torch.cumsum(t, dim=-1)] and [t.sum(dim=-1)]. *)
Record Reductions :=
  { cumsum : list spec_float -> list spec_float;
    sum : list spec_float -> spec_float }.

(** Accumulation in float32, from left to right: every running total
    is rounded before the next entry is added. *)
Fixpoint cumsum_from (acc : spec_float) (l : list spec_float)
  : list spec_float :=
  match l with
  | [] => []
  | x :: t => fadd acc x :: cumsum_from (fadd acc x) t
  end.

Definition narrow : Reductions :=
  {| cumsum := fun l => match l with
                        | [] => []
                        | x :: t => x :: cumsum_from x t
                        end;
     sum := foldl fadd zero |}.

(** Accumulation without rounding (of numbers), every total rounded
    when it is stored. *)
Fixpoint cumsum_wide_from (acc : Z) (l : list spec_float)
  : list spec_float :=
  match l with
  | [] => []
  | x :: t =>
      of_Z (acc + scaled x) (-149) :: cumsum_wide_from (acc + scaled x) t
  end.

Definition wide : Reductions :=
  {| cumsum := cumsum_wide_from 0;
     sum := fun l => of_Z (foldr Z.add 0%Z (scaled <$> l)) (-149) |}.

(** [torch.sort(t, dim=-1, descending=True)]. *)
Fixpoint insert_desc (x : spec_float * nat) (l : list (spec_float * nat))
  : list (spec_float * nat) :=
  match l with
  | [] => [x]
  | y :: l' =>
      if SFleb (fst y) (fst x) then x :: y :: l'
      else y :: insert_desc x l'
  end.

Definition sort_pairs (l : list (spec_float * nat))
  : list (spec_float * nat) :=
  foldr insert_desc [] l.

Definition indexed (t : list spec_float) : list (spec_float * nat) :=
  zip t (seq 0 (length t)).

Definition sort_desc (t : list spec_float) : list spec_float * list nat :=
  let s := sort_pairs (indexed t) in (s.*1, s.*2).

(** [t[mask] = v]. *)
Definition masked_fill (t : list spec_float) (mask : list bool)
    (v : spec_float) : list spec_float :=
  zip_with (fun x (m : bool) => if m then v else x) t mask.

(** [t.div_(d)]. *)
Definition div (t : list spec_float) (d : spec_float) : list spec_float :=
  (fun x => fdiv x d) <$> t.

(** [mask = probs_sum - probs_sort > p]. *)
Definition top_p_mask (red : Reductions) (probs_sort : list spec_float)
    (p : spec_float) : list bool :=
  zip_with (fun s x => gtb (fsub s x) p) (cumsum red probs_sort) probs_sort.

Definition top_p_weights (red : Reductions) (probs_sort : list spec_float)
    (p : spec_float) : list spec_float :=
  let kept := masked_fill probs_sort (top_p_mask red probs_sort p) zero in
  div kept (sum red kept).

Definition sample_top_p {rng : Type} (red : Reductions)
    (multinomial : list spec_float -> rng -> option nat * rng)
    (probs : list spec_float) (p : spec_float) (g : rng)
  : option nat * rng :=
  let '(probs_sort, probs_idx) := sort_desc probs in
  let probs_sum := cumsum red probs_sort in
  let mask := zip_with (fun s x => gtb (fsub s x) p) probs_sum probs_sort in
  let probs_sort := masked_fill probs_sort mask zero in
  let probs_sort := div probs_sort (sum red probs_sort) in
  let '(next_token, g) := multinomial probs_sort g in
  (next_token ≫= Tensor.gather probs_idx, g).

End F32.

(** ** Data classes of the source *)

Module TokenResult.
Record t := mk
  { token : Z;
    text : string;
    logprobs : option (list Q) }.
End TokenResult.

(** [CompletionPrediction] and [ChatPrediction] have the same fields and
    differ in the type of [generation] only. *)
Module Prediction.
Record t (G : Type) := mk
  { generation : G;
    decoded_tokens : option (list string);
    logprobs : option (list (option (list Q))) }.
Arguments mk {G}.
Arguments generation {G}.
Arguments decoded_tokens {G}.
Arguments logprobs {G}.
End Prediction.

Definition CompletionPrediction := Prediction.t string.

Inductive StopReason := end_of_turn | end_of_message | out_of_tokens.

Record ModelInput := { ModelInput_tokens : list Z }.

Record ModelArgs := { max_seq_len : nat; max_batch_size : nat }.

Record Tokenizer :=
  { encode : string -> bool -> bool -> list Z;
    decode : list Z -> string;
    pad_id : Z;
    stop_tokens : list Z }.

(** ** Effects: what a call does, in order *)

(** Exceptions the modelled code can raise: the [assert] of [generate],
    an index into an empty logits tensor, and a draw or arg-max that
    torch refuses. *)
Inductive exn := AssertionError | IndexError | RuntimeError.

Inductive result (A : Type) :=
| Ok (a : A)
| Raise (e : exn).
Arguments Ok {A}.
Arguments Raise {A}.

(** One entry per observable action of a call.  [Forward] records the
    window and start offset given to [model.forward] and the logits it
    answered with (one row per window position). *)
Inductive event :=
| Cprint (max_prompt_len max_seq_len : nat)
| Forward (window : list Z) (start_pos : nat) (logits : list (list Q))
| SampleTopP (probs : list Q) (p : Q)
| Yield (r : TokenResult.t).

(** The results a generator hands to its consumer. *)
Definition yields (evs : list event) : list TokenResult.t :=
  omap (fun e => match e with Yield r => Some r | _ => None end) evs.

(** The forward passes of a trace, as (window, start offset). *)
Definition forward_calls (evs : list event) : list (list Z * nat) :=
  omap (fun e => match e with Forward w s _ => Some (w, s) | _ => None end) evs.

(** The calls of [sample_top_p] in a trace. *)
Definition sampler_calls (evs : list event) : list (list Q * Q) :=
  omap (fun e => match e with SampleTopP q p => Some (q, p) | _ => None end) evs.

Section Effects.

(** State that outlives a step: torch's random generator and whatever
    the transformer keeps between forward passes (its attention cache). *)
Context {rng cache : Type}.

Record sys := Sys { rng_state : rng; model_state : cache }.

Record run (A : Type) := Run
  { outcome : result A;
    events : list event;
    final : sys }.
Arguments Run {A}.
Arguments outcome {A}.
Arguments events {A}.
Arguments final {A}.

Definition M (A : Type) : Type := sys -> run A.

Definition ret {A} (a : A) : M A := fun s => Run (Ok a) [] s.

Definition bind {A B} (m : M A) (k : A -> M B) : M B := fun s =>
  let r := m s in
  match outcome r with
  | Ok a =>
      let r' := k a (final r) in
      Run (outcome r') (events r ++ events r') (final r')
  | Raise e => Run (Raise e) (events r) (final r)
  end.

Definition raise {A} (e : exn) : M A := fun s => Run (Raise e) [] s.

Definition emit (e : event) : M unit := fun s => Run (Ok tt) [e] s.

(** [assert b]. *)
Definition assert (b : bool) : M unit :=
  if b then ret tt else raise AssertionError.

(** A partial torch operation: its value, or the exception. *)
Definition require {A} (e : exn) (o : option A) : M A :=
  match o with Some a => ret a | None => raise e end.

(** [for result in gen: ...] consumes the generator to its end and sees
    the results it yielded; an exception of the generator propagates. *)
Definition drive {A} (gen : M A) : M (list TokenResult.t) := fun s =>
  let r := gen s in
  Run (match outcome r with
       | Ok _ => Ok (yields (events r))
       | Raise e => Raise e
       end) (events r) (final r).

End Effects.

Arguments sys : clear implicits.
Arguments run : clear implicits.
Arguments M : clear implicits.
Arguments Run {rng cache A}.
Arguments outcome {rng cache A}.
Arguments events {rng cache A}.
Arguments final {rng cache A}.

Notation "x <- m ;; k" := (bind m (fun x => k))
  (at level 100, m at next level, right associativity).

(** ** Collaborators *)

(** The torch functions whose values the engine only passes on. *)
Record Torch (rng : Type) :=
  { softmax : list Q -> list Q;
    cross_entropy : list (list Q) -> list Z -> Z -> list Q;
    multinomial : list Q -> rng -> option nat * rng }.
Arguments softmax {rng}.
Arguments cross_entropy {rng}.
Arguments multinomial {rng}.

(** [Transformer.forward(tokens, start_pos)]: the logits of every window
    position, and the model's state after the pass. *)
Record Transformer (cache : Type) :=
  { params : ModelArgs;
    forward : list Z -> nat -> cache -> list (list Q) * cache }.
Arguments params {cache}.
Arguments forward {cache}.

Record ChatFormat (Message ToolPromptFormat CompletionMessage : Type) :=
  { encode_dialog_prompt : list Message -> ToolPromptFormat -> ModelInput;
    decode_assistant_message : list Z -> StopReason -> CompletionMessage }.
Arguments encode_dialog_prompt {Message ToolPromptFormat CompletionMessage}.
Arguments decode_assistant_message {Message ToolPromptFormat CompletionMessage}.

Record Llama (cache Message ToolPromptFormat CompletionMessage : Type) :=
  { args : ModelArgs;
    model : Transformer cache;
    tokenizer : Tokenizer;
    formatter : ChatFormat Message ToolPromptFormat CompletionMessage }.
Arguments args {cache Message ToolPromptFormat CompletionMessage}.
Arguments model {cache Message ToolPromptFormat CompletionMessage}.
Arguments tokenizer {cache Message ToolPromptFormat CompletionMessage}.
Arguments formatter {cache Message ToolPromptFormat CompletionMessage}.

(** ** The generation engine *)

Section Engine.

Context {rng cache Message ToolPromptFormat CompletionMessage : Type}.
Variable torch : Torch rng.
Variable self : Llama cache Message ToolPromptFormat CompletionMessage.

#[local] Abbreviation M := (M rng cache).

Definition ChatPrediction := Prediction.t CompletionMessage.

(** [self.model.forward(window, start_pos)]. *)
Definition call_forward (window : list Z) (start_pos : nat)
  : M (list (list Q)) := fun s =>
  let '(logits, c) := forward (model self) window start_pos (model_state s) in
  Run (Ok logits) [Forward window start_pos logits] (Sys (rng_state s) c).

(** [sample_top_p(probs, p)], as a step of the engine. *)
Definition call_sample_top_p (probs : list Q) (p : Q) : M nat := fun s =>
  let '(next_token, g) :=
    sample_top_p (multinomial torch) probs p (rng_state s) in
  Run (match next_token with Some i => Ok i | None => Raise RuntimeError end)
      [SampleTopP probs p] (Sys g (model_state s)).

(** The local variables of [generate] that change from step to step. *)
Record frame := Frame
  { tokens : list Z;
    token_logprobs : list Q;
    prev_pos : nat;
    eos_reached : bool }.

(** [input_text_mask = tokens != pad_id]. *)
Definition text_mask (pad : Z) (tokens : list Z) : list bool :=
  (fun t => negb (t =? pad)%Z) <$> tokens.

(** The choice of the next token from the logits of the last window
    position (lines 198-202). *)
Definition next_token_of (temperature top_p : Q) (last_logits : list Q)
  : M nat :=
  if Tensor.Qgtb temperature 0 then
    let probs := softmax torch ((fun x => (x / temperature)%Q) <$> last_logits) in
    call_sample_top_p probs top_p
  else
    require RuntimeError (Tensor.argmax last_logits).

(** Lines 204-233 of a loop iteration, once the sampler or the arg-max
    has answered [next_token]: the prompt mask is enforced, the token
    is stored, the log-probabilities and the stop flag are updated.
    The result is the frame after [prev_pos = cur_pos] and the
    [TokenResult] the iteration yields. *)
Definition place_token (input_text_mask : list bool) (logprobs : bool)
    (cur_pos : nat) (fr : frame) (logits : list (list Q))
    (next_token : nat) : frame * TokenResult.t :=
  let pad_id := pad_id (tokenizer self) in
  let next_token := Z.of_nat next_token in
  (* only replace token if prompt has already been generated *)
  let next_token :=
    if (input_text_mask !!! cur_pos : bool) then tokens fr !!! cur_pos
    else next_token in
  let tokens := <[cur_pos := next_token]> (tokens fr) in
  let target := Tensor.slice tokens (prev_pos fr + 1) (cur_pos + 1) in
  let token_logprobs :=
    if logprobs then
      Tensor.set_slice (token_logprobs fr) (prev_pos fr + 1) (cur_pos + 1)
        (Qopp <$> cross_entropy torch logits target pad_id)
    else token_logprobs fr in
  let eos_reached :=
    eos_reached fr
    || (negb (input_text_mask !!! cur_pos : bool)
        && bool_decide (next_token ∈ stop_tokens (tokenizer self))) in
  (Frame tokens token_logprobs cur_pos eos_reached,
   TokenResult.mk next_token
     (decode (tokenizer self) [next_token])
     (if logprobs
      then Some (Tensor.slice token_logprobs (prev_pos fr + 1) (cur_pos + 1))
      else None)).

(** One iteration of the [for cur_pos in range(...)] loop. *)
Definition decode_step (input_text_mask : list bool)
    (temperature top_p : Q) (logprobs : bool)
    (cur_pos : nat) (fr : frame) : M frame :=
  logits <- call_forward (Tensor.slice (tokens fr) (prev_pos fr) cur_pos)
                         (prev_pos fr);;
  last_logits <- require IndexError (last logits);;
  next_token <- next_token_of temperature top_p last_logits;;
  let '(fr, result) :=
    place_token input_text_mask logprobs cur_pos fr logits next_token in
  _ <- emit (Yield result);;
  ret fr.

(** The loop over [range(min_prompt_len, total_len)], with its [break]
    once [all(eos_reached)]. *)
Fixpoint decode_loop (input_text_mask : list bool)
    (temperature top_p : Q) (logprobs : bool)
    (positions : list nat) (fr : frame) : M frame :=
  match positions with
  | [] => ret fr
  | cur_pos :: rest =>
      fr <- decode_step input_text_mask temperature top_p logprobs cur_pos fr;;
      if eos_reached fr then ret fr
      else decode_loop input_text_mask temperature top_p logprobs rest fr
  end.

(** [Llama.generate], run until the generator is exhausted.  The
    generator of the source returns nothing; the value kept here is the
    final frame, so that the buffer can be spoken of: [None] when the
    call returned before the buffer was allocated. *)
Definition generate (model_input : ModelInput) (max_gen_len : nat)
    (temperature top_p : Q) (logprobs : bool) : M (option frame) :=
  let params := params (model self) in
  (* prompt_tokens = [model_input.tokens], a batch of one row *)
  let t := ModelInput_tokens model_input in
  let bsz := 1 in
  _ <- assert (bsz <=? max_batch_size params);;
  let min_prompt_len := length t in
  let max_prompt_len := length t in
  if max_seq_len params <=? max_prompt_len then
    _ <- emit (Cprint max_prompt_len (max_seq_len params));;
    ret None
  else
    let total_len := min (max_gen_len + max_prompt_len) (max_seq_len params) in
    let pad_id := pad_id (tokenizer self) in
    let tokens := Tensor.set_prefix (Tensor.full total_len pad_id) t in
    let token_logprobs : list Q :=
      if logprobs then replicate total_len 0%Q else [] in
    let prev_pos := 0 in
    let eos_reached := false in
    let input_text_mask := text_mask pad_id tokens in
    token_logprobs <-
      (if min_prompt_len =? total_len then
         logits <- call_forward tokens prev_pos;;
         ret (Qopp <$> cross_entropy torch logits tokens pad_id)
       else ret token_logprobs);;
    fr <- decode_loop input_text_mask temperature top_p logprobs
           (seq min_prompt_len (total_len - min_prompt_len))
           (Frame tokens token_logprobs prev_pos eos_reached);;
    ret (Some fr).

(** A value a [torch.long] tensor can hold. *)
Definition int64 (z : Z) : bool := (- 2 ^ 63 <=? z)%Z && (z <? 2 ^ 63)%Z.

(** A check that torch makes and answers with a [RuntimeError]. *)
Definition torch_check (b : bool) : M unit :=
  if b then ret tt else raise RuntimeError.

(** [Llama.generate] as Python calls it: [max_gen_len] is any [int] and
    the token ids are any [int]s.  Lines 159-171 are those of
    [generate].  The set-up of the buffer (lines 173-177) raises a
    [RuntimeError] when [torch.full] is asked for a negative length or
    for a pad id that is no [int64], when [torch.tensor] meets a token
    id that is no [int64], and when the prompt does not have the length
    of the slice [tokens[k, :len(t)]] it is assigned to, unless it is a
    single token, which torch broadcasts (here into an empty slice).
    Past the set-up a budget that is not negative is a natural number
    and the call goes on as [generate]; the one call with a negative
    budget that passes the set-up has an empty buffer and an empty
    range of positions, so that it returns at once. *)
Definition Llama_generate (model_input : ModelInput) (max_gen_len : Z)
    (temperature top_p : Q) (logprobs : bool) : M (option frame) :=
  let params := params (model self) in
  let t := ModelInput_tokens model_input in
  let bsz := 1 in
  _ <- assert (bsz <=? max_batch_size params);;
  let max_prompt_len := length t in
  if max_seq_len params <=? max_prompt_len then
    _ <- emit (Cprint max_prompt_len (max_seq_len params));;
    ret None
  else
    let total_len :=
      Z.min (max_gen_len + Z.of_nat max_prompt_len)
            (Z.of_nat (max_seq_len params)) in
    let pad_id := pad_id (tokenizer self) in
    (* tokens = torch.full((bsz, total_len), pad_id, dtype=torch.long) *)
    _ <- torch_check ((0 <=? total_len)%Z && int64 pad_id);;
    (* tokens[k, : len(t)] = torch.tensor(t, dtype=torch.long) *)
    _ <- torch_check (forallb int64 t);;
    _ <- torch_check ((Z.of_nat (length t) <=? total_len)%Z
                      || (length t =? 1));;
    if (max_gen_len <? 0)%Z then ret (Some (Frame [] [] 0 false))
    else generate model_input (Z.to_nat max_gen_len) temperature top_p
           logprobs.

(** The resolution of [max_gen_len] shared by the two adapters.  With a
    context limit of zero the difference [max_seq_len - 1] is cut off at
    zero; [generate] then turns every prompt away before it looks at
    [max_gen_len]. *)
Definition resolve_max_gen_len (max_gen_len : option nat) : nat :=
  match max_gen_len with
  | None => max_seq_len (params (model self)) - 1
  | Some n =>
      if (n =? 0) || (max_seq_len (params (model self)) <=? n)
      then max_seq_len (params (model self)) - 1
      else n
  end.

Definition text_completion (prompt : string) (temperature top_p : Q)
    (max_gen_len : option nat) (logprobs : bool) : M CompletionPrediction :=
  let max_gen_len := resolve_max_gen_len max_gen_len in
  let prompt_tokens := encode (tokenizer self) prompt true false in
  results <- drive (generate {| ModelInput_tokens := prompt_tokens |}
                     max_gen_len temperature top_p logprobs);;
  let tokens := TokenResult.token <$> results in
  let decoded_tokens :=
    if logprobs then TokenResult.text <$> results else [] in
  let token_logprobs :=
    if logprobs then TokenResult.logprobs <$> results else [] in
  let generation := decode (tokenizer self) tokens in
  if logprobs then
    ret (Prediction.mk generation (Some decoded_tokens) (Some token_logprobs))
  else
    ret (Prediction.mk generation None None).

(** The body of the chat loop that tracks the stop reason: the value of
    [stop_reason] and how many times it has been assigned. *)
Definition track_stop_reason (st : option StopReason * nat)
    (result : TokenResult.t) : option StopReason * nat :=
  if String.eqb (TokenResult.text result) "<|eot_id|>" then
    (Some end_of_turn, S (snd st))
  else if String.eqb (TokenResult.text result) "<|eom_id|>" then
    (Some end_of_message, S (snd st))
  else st.

(** [stop_reason] after the loop and the default that follows it. *)
Definition final_stop_reason (results : list TokenResult.t)
  : StopReason * nat :=
  let '(stop_reason, n) := foldl track_stop_reason (None, 0) results in
  match stop_reason with
  | None => (out_of_tokens, S n)
  | Some r => (r, n)
  end.

Definition chat_completion (messages : list Message)
    (temperature top_p : Q) (max_gen_len : option nat) (logprobs : bool)
    (tool_prompt_format : ToolPromptFormat) : M ChatPrediction :=
  let max_gen_len := resolve_max_gen_len max_gen_len in
  results <- drive (generate
                     (encode_dialog_prompt (formatter self)
                        messages tool_prompt_format)
                     max_gen_len temperature top_p logprobs);;
  let tokens := TokenResult.token <$> results in
  let stop_reason := fst (final_stop_reason results) in
  let decoded_tokens :=
    if logprobs then TokenResult.text <$> results else [] in
  let token_logprobs :=
    if logprobs then TokenResult.logprobs <$> results else [] in
  let message :=
    decode_assistant_message (formatter self) tokens stop_reason in
  if logprobs then
    ret (Prediction.mk message (Some decoded_tokens) (Some token_logprobs))
  else
    ret (Prediction.mk message None None).

End Engine.

(** ** A small concrete engine

    A five-word vocabulary used to run the definitions above: the model
    answers, for every window position holding token [t], logits that
    favour [t + 1] (mod 5); tokens [3] and [4] are the stop tokens and
    decode to the end-of-turn and end-of-message markers; the pad id is
    [-1]. *)

Module Toy.

Definition row (t : Z) : list Q :=
  (fun k => if (k =? (t + 1) mod 5)%Z then 2%Q else 1%Q)
    <$> [0; 1; 2; 3; 4]%Z.

(** The model state counts the forward passes made so far. *)
Definition transformer (max_seq_len max_batch_size : nat) : Transformer nat :=
  {| params := {| max_seq_len := max_seq_len;
                  max_batch_size := max_batch_size |};
     forward := fun window _ n => (row <$> window, S n) |}.

Definition tok : Tokenizer :=
  {| encode := fun _ _ _ => [0; 1]%Z;
     decode := fun ts =>
       match ts with
       | [] => EmptyString
       | [t] =>
           if (t =? 3)%Z then "<|eot_id|>"
           else if (t =? 4)%Z then "<|eom_id|>"
           else "w"
       | _ => "ww"
       end;
     pad_id := (-1)%Z;
     stop_tokens := [3; 4]%Z |}.

Definition chat : ChatFormat unit unit (list Z * StopReason) :=
  {| encode_dialog_prompt := fun _ _ => {| ModelInput_tokens := [0; 1]%Z |};
     decode_assistant_message := fun ts r => (ts, r) |}.

Definition llama (max_seq_len max_batch_size : nat)
  : Llama nat unit unit (list Z * StopReason) :=
  {| args := {| max_seq_len := max_seq_len;
                max_batch_size := max_batch_size |};
     model := transformer max_seq_len max_batch_size;
     tokenizer := tok;
     formatter := chat |}.

(** The random generator is a counter and the draw takes the first
    entry of positive weight, if there is one; [softmax] is replaced by
    a division by the sum and [cross_entropy] answers a loss of one for
    every target. *)
Definition first_positive (w : list Q) : option nat :=
  fst <$> list_find (fun x => Tensor.Qgtb x 0 = true) w.

Definition torch : Torch nat :=
  {| softmax := fun l => Tensor.div l (Tensor.sum l);
     cross_entropy := fun _ target _ => (fun _ => 1%Q) <$> target;
     multinomial := fun w g => (first_positive w, S g) |}.

(** The same engine with a draw that always answers entry [k]. *)
Definition torch_const (k : nat) : Torch nat :=
  {| softmax := fun l => Tensor.div l (Tensor.sum l);
     cross_entropy := fun _ target _ => (fun _ => 1%Q) <$> target;
     multinomial := fun _ g => (Some k, S g) |}.

Definition s0 : sys nat nat := Sys 0 0.

End Toy.

(** * Vocabulary of the statements *)

(** A probability vector: no negative entry, total one. *)
Definition is_distribution (probs : list Q) : Prop :=
  Forall (Qle 0) probs /\ (Tensor.sum probs == 1)%Q.

(** Order of the sorted (value, index) pairs: values do not increase. *)
Definition desc (a b : Q * nat) : Prop := (fst b <= fst a)%Q.

(** The two end markers [chat_completion] looks for. *)
Definition is_marker (text : string) : Prop :=
  text = "<|eot_id|>" \/ text = "<|eom_id|>".

(** A trace in which every yielded token is the arg-max of the last row
    of the logits answered by the forward pass just before it, and in
    which the sampler is never called.  [prev] holds the logits of the
    forward pass that has not yet been followed by a result. *)
Fixpoint argmax_trace (prev : option (list (list Q))) (evs : list event)
  : Prop :=
  match evs with
  | [] => True
  | Forward _ _ logits :: evs' => argmax_trace (Some logits) evs'
  | Yield r :: evs' =>
      (exists logits row k,
          prev = Some logits /\ last logits = Some row /\
          Tensor.argmax row = Some k /\ TokenResult.token r = Z.of_nat k) /\
      argmax_trace None evs'
  | SampleTopP _ _ :: _ => False
  | Cprint _ _ :: evs' => argmax_trace prev evs'
  end.

Section Runs.

Context {rng cache Message ToolPromptFormat CompletionMessage : Type}.
Variable torch : Torch rng.
Variable self : Llama cache Message ToolPromptFormat CompletionMessage.

(** Two runs agree when they end alike, did the same things and left
    the model in the same state, each with its random generator
    untouched. *)
Definition agree {A} (g1 g2 : rng) (r1 r2 : run rng cache A) : Prop :=
  outcome r1 = outcome r2 /\ events r1 = events r2 /\
  exists c, final r1 = Sys g1 c /\ final r2 = Sys g2 c.

(** [total_len = min(max_gen_len + prompt_len, max_seq_len)]. *)
Definition total_len (prompt_len max_gen_len : nat) : nat :=
  min (max_gen_len + prompt_len) (max_seq_len (params (model self))).

(** The buffer before the first step: the prompt, then padding. *)
Definition initial_tokens (t : list Z) (max_gen_len : nat) : list Z :=
  Tensor.set_prefix
    (Tensor.full (total_len (length t) max_gen_len) (pad_id (tokenizer self)))
    t.

Section Iteration.

Variables (input_text_mask : list bool) (temperature top_p : Q)
          (logprobs : bool).

(** The three ways an iteration at [cur_pos] can go from the frame
    [fr]: no logits to index, no token chosen, or a token placed and
    yielded. *)
Inductive step_spec (cur_pos : nat) (fr : frame) (s : sys rng cache)
  : run rng cache frame -> Prop :=
| step_no_logits logits c :
    forward (model self)
      (Tensor.slice (tokens fr) (prev_pos fr) cur_pos)
      (prev_pos fr) (model_state s) = (logits, c) ->
    last logits = None ->
    step_spec cur_pos fr s
      (Run (Raise IndexError)
           [Forward (Tensor.slice (tokens fr) (prev_pos fr) cur_pos)
                    (prev_pos fr) logits]
           (Sys (rng_state s) c))
| step_no_token logits c row e evs s' :
    forward (model self)
      (Tensor.slice (tokens fr) (prev_pos fr) cur_pos)
      (prev_pos fr) (model_state s) = (logits, c) ->
    last logits = Some row ->
    next_token_of torch temperature top_p row (Sys (rng_state s) c)
      = Run (Raise e) evs s' ->
    step_spec cur_pos fr s
      (Run (Raise e)
           (Forward (Tensor.slice (tokens fr) (prev_pos fr) cur_pos)
                    (prev_pos fr) logits :: evs) s')
| step_token logits c row k evs s' :
    forward (model self)
      (Tensor.slice (tokens fr) (prev_pos fr) cur_pos)
      (prev_pos fr) (model_state s) = (logits, c) ->
    last logits = Some row ->
    next_token_of torch temperature top_p row (Sys (rng_state s) c)
      = Run (Ok k) evs s' ->
    let placed :=
      place_token torch self input_text_mask logprobs cur_pos fr logits k in
    step_spec cur_pos fr s
      (Run (Ok placed.1)
           (Forward (Tensor.slice (tokens fr) (prev_pos fr) cur_pos)
                    (prev_pos fr) logits
              :: evs ++ [Yield placed.2]) s').

(** The runs of the loop: it ends when the positions are used up,
    when an iteration raises, or when an iteration sets the stop
    flag; otherwise it goes on from the frame of the iteration. *)
Inductive loop_spec : list nat -> frame -> sys rng cache ->
                      run rng cache frame -> Prop :=
| loop_done fr s : loop_spec [] fr s (Run (Ok fr) [] s)
| loop_raise cur_pos rest fr s e evs s' :
    decode_step torch self input_text_mask temperature top_p logprobs
      cur_pos fr s = Run (Raise e) evs s' ->
    loop_spec (cur_pos :: rest) fr s (Run (Raise e) evs s')
| loop_break cur_pos rest fr s fr' evs s' :
    decode_step torch self input_text_mask temperature top_p logprobs
      cur_pos fr s = Run (Ok fr') evs s' ->
    eos_reached fr' = true ->
    loop_spec (cur_pos :: rest) fr s (Run (Ok fr') evs s')
| loop_next cur_pos rest fr s fr' evs s' r :
    decode_step torch self input_text_mask temperature top_p logprobs
      cur_pos fr s = Run (Ok fr') evs s' ->
    eos_reached fr' = false ->
    loop_spec rest fr' s' r ->
    loop_spec (cur_pos :: rest) fr s
              (Run (outcome r) (evs ++ events r) (final r)).

End Iteration.

Section Call.

Variables (model_input : ModelInput) (max_gen_len : nat)
          (temperature top_p : Q) (logprobs : bool).

(** The frame the loop starts from. *)
Definition initial_frame : frame :=
  Frame (initial_tokens (ModelInput_tokens model_input) max_gen_len)
        (if logprobs
         then replicate
                (total_len (length (ModelInput_tokens model_input))
                   max_gen_len) 0%Q
         else [])
        0 false.

(** Every call of [generate] goes one of four ways: the assertion
    fails, the prompt is turned away, the prompt is only scored, or
    the decode loop runs. *)
Inductive generate_spec (s : sys rng cache)
  : run rng cache (option frame) -> Prop :=
| generate_asserts :
    max_batch_size (params (model self)) = 0 ->
    generate_spec s (Run (Raise AssertionError) [] s)
| generate_rejects :
    1 <= max_batch_size (params (model self)) ->
    max_seq_len (params (model self))
      <= length (ModelInput_tokens model_input) ->
    generate_spec s
      (Run (Ok None)
           [Cprint (length (ModelInput_tokens model_input))
                   (max_seq_len (params (model self)))] s)
| generate_scores logits c :
    1 <= max_batch_size (params (model self)) ->
    length (ModelInput_tokens model_input)
      < max_seq_len (params (model self)) ->
    max_gen_len = 0 ->
    forward (model self) (ModelInput_tokens model_input) 0 (model_state s)
      = (logits, c) ->
    generate_spec s
      (Run (Ok (Some (Frame (ModelInput_tokens model_input)
                        (Qopp <$> cross_entropy torch logits
                                    (ModelInput_tokens model_input)
                                    (pad_id (tokenizer self)))
                        0 false)))
           [Forward (ModelInput_tokens model_input) 0 logits]
           (Sys (rng_state s) c))
| generate_decodes r :
    1 <= max_batch_size (params (model self)) ->
    length (ModelInput_tokens model_input)
      < max_seq_len (params (model self)) ->
    0 < max_gen_len ->
    loop_spec
      (text_mask (pad_id (tokenizer self))
         (initial_tokens (ModelInput_tokens model_input) max_gen_len))
      temperature top_p logprobs
      (seq (length (ModelInput_tokens model_input))
           (total_len (length (ModelInput_tokens model_input)) max_gen_len
            - length (ModelInput_tokens model_input)))
      initial_frame s r ->
    generate_spec s
      (Run (match outcome r with
            | Ok fr => Ok (Some fr)
            | Raise e => Raise e
            end) (events r) (final r)).

End Call.

End Runs.

(** * Properties *)

(** ** Arithmetic of the tensor primitives *)

Section TensorFacts.

Import Tensor.
#[local] Open Scope Q_scope.

Lemma Qgtb_true (a b : Q) : Qgtb a b = true <-> b < a.
Proof.
  unfold Qgtb. rewrite negb_true_iff, <- not_true_iff_false, Qle_bool_iff.
  split; [apply Qnot_le_lt | apply Qlt_not_le].
Qed.

Lemma Qgtb_false (a b : Q) : Qgtb a b = false <-> a <= b.
Proof.
  unfold Qgtb. rewrite negb_false_iff. apply Qle_bool_iff.
Qed.

#[global] Instance Qgtb_proper : Proper (Qeq ==> Qeq ==> eq) Qgtb.
Proof. intros a a' Ha b b' Hb. unfold Qgtb. by rewrite Ha, Hb. Qed.

Lemma sum_cons (x : Q) (l : list Q) : sum (x :: l) = x + sum l.
Proof. reflexivity. Qed.


Lemma sum_nonneg (l : list Q) : Forall (Qle 0) l -> 0 <= sum l.
Proof.
  induction 1 as [|x l Hx _ IH]; [apply Qle_refl|].
  rewrite sum_cons. lra.
Qed.

Lemma sum_nonpos (l : list Q) : Forall (fun x => x <= 0) l -> sum l <= 0.
Proof.
  induction 1 as [|x l Hx _ IH]; [apply Qle_refl|].
  rewrite sum_cons. lra.
Qed.


Lemma sum_perm (l k : list Q) : Permutation l k -> sum l == sum k.
Proof.
  induction 1 as [|x l k _ IH|x y l|l k m _ IH1 _ IH2].
  - reflexivity.
  - rewrite !sum_cons, IH. reflexivity.
  - rewrite !sum_cons. ring.
  - by rewrite IH1.
Qed.

Lemma sum_div (l : list Q) (d : Q) : sum (div l d) == sum l / d.
Proof.
  unfold div. induction l as [|x l IH].
  - change (sum (_ <$> [])) with 0. change (sum []) with 0. unfold Qdiv. ring.
  - rewrite fmap_cons, !sum_cons, IH. unfold Qdiv. ring.
Qed.

(** The running total at entry [i], less the entry, is the total of the
    entries before it. *)
Lemma cumsum_from_before (acc : Q) (l : list Q) (i : nat) (c x : Q) :
  cumsum_from acc l !! i = Some c -> l !! i = Some x ->
  c - x == acc + sum (take i l).
Proof.
  revert acc i. induction l as [|y l IH]; intros acc i Hc Hx; [done|].
  destruct i as [|i].
  - injection Hc as <-. injection Hx as <-.
    rewrite take_0. change (sum []) with 0. ring.
  - change (cumsum_from (acc + y) l !! i = Some c) in Hc.
    change (l !! i = Some x) in Hx.
    rewrite (IH _ _ Hc Hx). change (take (S i) (y :: l)) with (y :: take i l).
    rewrite sum_cons. ring.
Qed.

Lemma cumsum_from_length (acc : Q) (l : list Q) :
  length (cumsum_from acc l) = length l.
Proof. revert acc; induction l; intros; simpl; auto. Qed.


Lemma masked_fill_lookup (t : list Q) (mask : list bool) (v : Q) (i : nat)
    (x : Q) (m : bool) :
  t !! i = Some x -> mask !! i = Some m ->
  masked_fill t mask v !! i = Some (if m then v else x).
Proof.
  intros Ht Hm. unfold masked_fill. rewrite lookup_zip_with, Ht; simpl.
  by rewrite Hm.
Qed.

End TensorFacts.

(** ** The descending sort *)

Section SortFacts.

Import Tensor.

Lemma insert_desc_perm (x : Q * nat) (l : list (Q * nat)) :
  Permutation (insert_desc x l) (x :: l).
Proof.
  induction l as [|y l IH]; simpl; [done|].
  destruct (Qle_bool y.1 x.1); [done|].
  rewrite IH. apply perm_swap.
Qed.

Lemma sort_pairs_perm (l : list (Q * nat)) : Permutation (sort_pairs l) l.
Proof.
  induction l as [|x l IH]; simpl; [done|].
  rewrite insert_desc_perm. by constructor.
Qed.

Lemma insert_desc_sorted (x : Q * nat) (l : list (Q * nat)) :
  StronglySorted desc l -> StronglySorted desc (insert_desc x l).
Proof.
  induction 1 as [|y l Hl IH Hy]; simpl.
  - repeat constructor.
  - destruct (Qle_bool y.1 x.1) eqn:E.
    + apply Qle_bool_iff in E.
      constructor; [by constructor|].
      constructor; [exact E|].
      eapply Forall_impl; [exact Hy|].
      intros z Hz. unfold desc in *. by eapply Qle_trans.
    + constructor; [exact IH|].
      rewrite insert_desc_perm. constructor; [|exact Hy].
      unfold desc. apply Qlt_le_weak, Qnot_le_lt.
      intros H. apply Qle_bool_iff in H. congruence.
Qed.

Lemma sort_pairs_sorted (l : list (Q * nat)) :
  StronglySorted desc (sort_pairs l).
Proof.
  induction l as [|x l IH]; simpl; [constructor|].
  by apply insert_desc_sorted.
Qed.

Lemma indexed_fst (t : list Q) : (indexed t).*1 = t.
Proof. unfold indexed. apply fst_zip. by rewrite length_seq. Qed.

Lemma indexed_snd (t : list Q) : (indexed t).*2 = seq 0 (length t).
Proof. unfold indexed. apply snd_zip. by rewrite length_seq. Qed.

Lemma indexed_elem (t : list Q) (v : Q) (k : nat) :
  (v, k) ∈ indexed t -> t !! k = Some v.
Proof.
  intros [i Hi]%list_elem_of_lookup. unfold indexed in Hi.
  apply lookup_zip_with_Some in Hi as (x & j & [= -> ->] & Hx & Hj).
  apply lookup_seq in Hj as [-> _]. exact Hx.
Qed.

Lemma sort_desc_length (t : list Q) :
  length (sort_desc t).1 = length t /\ length (sort_desc t).2 = length t.
Proof.
  unfold sort_desc; simpl. rewrite !length_fmap.
  rewrite (Permutation_length (sort_pairs_perm _)).
  unfold indexed. rewrite length_zip, length_seq. lia.
Qed.

Lemma sort_desc_values_perm (t : list Q) : Permutation (sort_desc t).1 t.
Proof.
  unfold sort_desc; simpl.
  rewrite (sort_pairs_perm (indexed t)). by rewrite indexed_fst.
Qed.

Lemma sort_desc_idx_perm (t : list Q) :
  Permutation (sort_desc t).2 (seq 0 (length t)).
Proof.
  unfold sort_desc; simpl.
  rewrite (sort_pairs_perm (indexed t)). by rewrite indexed_snd.
Qed.

Lemma sort_desc_sorted (t : list Q) :
  StronglySorted (fun a b => (b <= a)%Q) (sort_desc t).1.
Proof.
  unfold sort_desc; simpl.
  induction (sort_pairs_sorted (indexed t)) as [|y l Hl IH Hy]; simpl.
  - constructor.
  - constructor; [exact IH|]. by apply Forall_fmap.
Qed.

(** The index tensor maps every sorted entry back to the place its
    value came from. *)
Lemma sort_desc_gather (t : list Q) (i k : nat) :
  (sort_desc t).2 !! i = Some k -> (sort_desc t).1 !! i = t !! k.
Proof.
  unfold sort_desc; simpl. rewrite !list_lookup_fmap.
  destruct (sort_pairs (indexed t) !! i) as [[v k']|] eqn:E; simpl; [|done].
  intros [= ->]. symmetry. apply indexed_elem.
  rewrite <- (sort_pairs_perm (indexed t)).
  by eapply list_elem_of_lookup_2.
Qed.

Lemma sort_desc_nonneg (t : list Q) :
  Forall (Qle 0) t -> Forall (Qle 0) (sort_desc t).1.
Proof. intros H. by rewrite (sort_desc_values_perm t). Qed.

Lemma sort_desc_sum (t : list Q) : (sum (sort_desc t).1 == sum t)%Q.
Proof. apply sum_perm, sort_desc_values_perm. Qed.

End SortFacts.

(** ** The nucleus sampler *)

Section SamplerFacts.

Import Tensor.
#[local] Open Scope Q_scope.

Lemma top_p_mask_length (l : list Q) (p : Q) :
  length (top_p_mask l p) = length l.
Proof.
  unfold top_p_mask, cumsum.
  rewrite length_zip_with, cumsum_from_length. lia.
Qed.

(** Entry [i] is excluded exactly when the mass before it exceeds [p]. *)
Lemma top_p_mask_lookup (l : list Q) (p : Q) (i : nat) :
  (i < length l)%nat ->
  top_p_mask l p !! i = Some (Qgtb (sum (take i l)) p).
Proof.
  intros Hi. unfold top_p_mask, cumsum.
  destruct (lookup_lt_is_Some_2 l i Hi) as [x Hx].
  destruct (lookup_lt_is_Some_2 (cumsum_from 0 l) i) as [c Hc];
    [by rewrite cumsum_from_length|].
  rewrite lookup_zip_with, Hc; simpl. rewrite Hx; simpl.
  f_equal. rewrite (cumsum_from_before _ _ _ _ _ Hc Hx).
  apply Qgtb_proper; [ring | reflexivity].
Qed.


(** The largest entry of a distribution is positive. *)
Lemma sorted_head_positive (l : list Q) :
  StronglySorted (fun a b => b <= a) l -> 0 < sum l ->
  exists x l', l = x :: l' /\ 0 < x.
Proof.
  intros Hs Hsum. destruct l as [|x l'].
  - change (sum []) with 0 in Hsum. lra.
  - exists x, l'. split; [done|].
    apply Qnot_le_lt. intros Hx.
    apply StronglySorted_inv in Hs as [_ Hall].
    assert (sum (x :: l') <= 0); [|lra].
    apply sum_nonpos. constructor; [done|].
    eapply Forall_impl; [exact Hall|]. simpl. intros; lra.
Qed.

Lemma masked_fill_nonneg (l : list Q) (mask : list bool) :
  Forall (Qle 0) l -> Forall (Qle 0) (masked_fill l mask 0).
Proof.
  intros Hl. unfold masked_fill. revert mask.
  induction Hl as [|x l Hx _ IH]; intros [|m mask]; simpl;
    try constructor; [|apply IH].
  destruct m; [apply Qle_refl | done].
Qed.

(** With a positive threshold the first sorted entry is kept, so what
    is left after the exclusion has positive mass. *)
Lemma kept_mass_positive (l : list Q) (p : Q) :
  StronglySorted (fun a b => b <= a) l -> Forall (Qle 0) l ->
  0 < sum l -> 0 < p ->
  0 < sum (masked_fill l (top_p_mask l p) 0).
Proof.
  intros Hs Hl Hsum Hp.
  destruct (sorted_head_positive l Hs Hsum) as (x & l' & -> & Hx).
  pose proof (top_p_mask_lookup (x :: l') p 0 ltac:(simpl; lia)) as H0.
  pose proof (masked_fill_nonneg (x :: l') (top_p_mask (x :: l') p) Hl) as Hk.
  destruct (top_p_mask (x :: l') p) as [|m mask]; [done|].
  injection H0 as ->. change (sum (take 0 (x :: l'))) with 0 in *.
  replace (Qgtb 0 p) with false in *
    by (symmetry; apply Qgtb_false; lra).
  unfold masked_fill in *.
  change (zip_with ?f (x :: l') (false :: mask))
    with (x :: zip_with f l' mask) in *.
  apply Forall_cons in Hk as [_ Hk].
  apply sum_nonneg in Hk. rewrite sum_cons. lra.
Qed.

Lemma div_lookup (l : list Q) (d : Q) (i : nat) (x : Q) :
  l !! i = Some x -> div l d !! i = Some (x / d).
Proof. intros H. unfold div. by rewrite list_lookup_fmap, H. Qed.


Lemma sample_top_p_unfold {rng} (multinomial : list Q -> rng -> option nat * rng)
    (probs : list Q) (p : Q) (g : rng) :
  sample_top_p multinomial probs p g =
  (let '(d, g') :=
     multinomial (top_p_weights (sort_desc probs).1 p) g in
   (d ≫= gather (sort_desc probs).2, g')).
Proof. reflexivity. Qed.

End SamplerFacts.

(** In exact arithmetic, for a probability distribution and [p] in
    (0,1], the sampler sorts the distribution in descending order (with
    the index of every sorted entry), excludes exactly the sorted
    entries before which the cumulative mass already exceeds [p], so
    that the entry with which the mass first crosses [p] is kept, sets
    the excluded entries to zero, divides the rest by their total so
    that the weights add up to one, draws one index with [multinomial]
    on these weights, and maps the drawn index through the sort indices
    to a vocabulary id. *)
Lemma sample_top_p_nucleus {rng : Type}
    (multinomial : list Q -> rng -> option nat * rng)
    (probs : list Q) (p : Q) (g : rng) :
  is_distribution probs -> (0 < p)%Q -> (p <= 1)%Q ->
  let probs_sort := (Tensor.sort_desc probs).1 in
  let probs_idx := (Tensor.sort_desc probs).2 in
  let mask := top_p_mask probs_sort p in
  let kept := Tensor.masked_fill probs_sort mask 0%Q in
  let weights := top_p_weights probs_sort p in
  (* the sort *)
  StronglySorted (fun a b => (b <= a)%Q) probs_sort /\
  Permutation probs_idx (seq 0 (length probs)) /\
  (forall i k, probs_idx !! i = Some k -> probs_sort !! i = probs !! k) /\
  (* the exclusion *)
  (forall i, i < length probs ->
     mask !! i = Some true <-> (p < Tensor.sum (take i probs_sort))%Q) /\
  (forall i, i < length probs ->
     (Tensor.sum (take i probs_sort) <= p)%Q ->
     (p < Tensor.sum (take (S i) probs_sort))%Q ->
     mask !! i = Some false) /\
  (* zeroing and renormalisation *)
  (forall i, mask !! i = Some true -> kept !! i = Some 0%Q) /\
  (forall i, mask !! i = Some false -> kept !! i = probs_sort !! i) /\
  (forall i x, kept !! i = Some x ->
     weights !! i = Some (x / Tensor.sum kept)%Q) /\
  (Tensor.sum weights == 1)%Q /\
  (* the draw and the way back to the vocabulary *)
  sample_top_p multinomial probs p g =
    (let '(d, g') := multinomial weights g in (d ≫= (probs_idx !!.), g')).
Proof.
  intros [Hnn Hsum] Hp0 Hp1 probs_sort probs_idx mask kept weights.
  pose proof (sort_desc_length probs) as [Hlen _].
  fold probs_sort in Hlen.
  assert (Hmask : forall i, i < length probs ->
            mask !! i = Some (Tensor.Qgtb (Tensor.sum (take i probs_sort)) p)).
  { intros i Hi. apply top_p_mask_lookup. by rewrite Hlen. }
  split; [apply sort_desc_sorted|].
  split; [apply sort_desc_idx_perm|].
  split; [apply sort_desc_gather|].
  split.
  { intros i Hi. rewrite (Hmask i Hi). rewrite <- Qgtb_true.
    split; [by intros [= ->] | by intros ->]. }
  split.
  { intros i Hi Hle _. rewrite (Hmask i Hi). f_equal. by apply Qgtb_false. }
  split.
  { intros i Hm.
    destruct (lookup_lt_is_Some_2 probs_sort i) as [x Hx].
    { rewrite <- (top_p_mask_length probs_sort p). by eapply lookup_lt_Some. }
    unfold kept. by rewrite (masked_fill_lookup _ _ _ _ _ _ Hx Hm). }
  split.
  { intros i Hm.
    destruct (lookup_lt_is_Some_2 probs_sort i) as [x Hx].
    { rewrite <- (top_p_mask_length probs_sort p). by eapply lookup_lt_Some. }
    unfold kept. by rewrite (masked_fill_lookup _ _ _ _ _ _ Hx Hm). }
  split.
  { intros i x Hx. by apply div_lookup. }
  split.
  { unfold weights, top_p_weights. fold mask. fold kept.
    rewrite sum_div.
    assert (0 < Tensor.sum kept)%Q as Hpos.
    { apply kept_mass_positive; [apply sort_desc_sorted| |  | done].
      - by apply sort_desc_nonneg.
      - unfold probs_sort. rewrite sort_desc_sum, Hsum. reflexivity. }
    field. intros H0. rewrite H0 in Hpos. by apply Qlt_irrefl in Hpos. }
  apply sample_top_p_unfold.
Qed.

(** ** The sampler in binary32 *)

Section Float32Facts.

Import F32.

(** Order of two floats that are numbers. *)
Lemma SFleb_total (a b : spec_float) :
  a <> S754_nan -> b <> S754_nan -> SFleb a b = false -> SFleb b a = true.
Proof.
  unfold SFleb, SFcompare.
  destruct a as [sa|sa| |sa ma ea], b as [sb|sb| |sb mb eb];
    intros Ha Hb; try done;
    try (by destruct sa); try (by destruct sb);
    try (by destruct sa, sb).
  assert (Hm : Pos.compare_cont Eq mb ma
               = CompOpp (Pos.compare_cont Eq ma mb))
    by (by rewrite Pos.compare_cont_antisym).
  destruct sa, sb; try done;
    rewrite (Z.compare_antisym ea eb), Hm;
    destruct (ea ?= eb)%Z; simpl; try done;
    by destruct (Pos.compare_cont Eq ma mb).
Qed.

Lemma nonneg_not_nan (a : spec_float) : nonneg a -> a <> S754_nan.
Proof. by intros H ->. Qed.

(** A number that is neither negative nor a zero is above zero. *)
Lemma nonneg_positive (a : spec_float) :
  nonneg a -> (forall s, a <> S754_zero s) -> gtb a zero = true.
Proof.
  unfold nonneg, gtb, SFleb, SFltb, zero.
  destruct a as [s|s| |s m e]; simpl; intros H Hz; try done.
  - by destruct (Hz s).
  - by destruct s.
  - by destruct s.
Qed.

(** A float less itself is a zero, or NaN: never above a threshold that
    is not negative. *)
Lemma fsub_diag_not_above (x p : spec_float) :
  SFltb p zero = false -> gtb (fsub x x) p = false.
Proof.
  intros Hp.
  assert (Hz : forall s, gtb (S754_zero s) p = false).
  { intros s. unfold gtb. revert Hp. unfold SFltb, SFcompare, zero.
    by destruct p as [sp|sp| |sp mp ep]. }
  destruct x as [s|s| |s m e].
  - unfold fsub, SFsub. destruct s; apply Hz.
  - unfold fsub, SFsub, gtb, SFltb. by destruct s, p.
  - unfold fsub, SFsub, gtb, SFltb. by destruct p.
  - unfold fsub, SFsub. rewrite Z.sub_diag. apply Hz.
Qed.

(** With a negative threshold a finite float less itself is above it. *)
Lemma fsub_diag_above (x p : spec_float) :
  SFltb p zero = true -> (exists s m e, x = S754_finite s m e) ->
  gtb (fsub x x) p = true.
Proof.
  intros Hp (s & m & e & ->).
  unfold fsub, SFsub. rewrite Z.sub_diag. exact Hp.
Qed.

(** A zero divided by anything is a zero or NaN. *)
Lemma fdiv_zero_not_above (s : bool) (d : spec_float) :
  gtb (fdiv (S754_zero s) d) zero = false.
Proof. by destruct d as [sd|sd| |sd m e]. Qed.

Lemma top_p_mask_lookup32 (red : Reductions) (l : list spec_float)
    (p : spec_float) (i : nat) (c x : spec_float) :
  cumsum red l !! i = Some c -> l !! i = Some x ->
  top_p_mask red l p !! i = Some (gtb (fsub c x) p).
Proof.
  intros Hc Hx. unfold top_p_mask. rewrite lookup_zip_with, Hc; simpl.
  by rewrite Hx.
Qed.

(** An entry of the mask belongs to an entry of the row. *)
Lemma top_p_mask_entry (red : Reductions) (l : list spec_float)
    (p : spec_float) (i : nat) (m : bool) :
  top_p_mask red l p !! i = Some m ->
  exists c x, cumsum red l !! i = Some c /\ l !! i = Some x /\
              m = gtb (fsub c x) p.
Proof.
  unfold top_p_mask. intros H.
  apply lookup_zip_with_Some in H as (c & x & -> & Hc & Hx).
  by exists c, x.
Qed.

Lemma masked_fill_lookup32 (t : list spec_float) (mask : list bool)
    (v : spec_float) (i : nat) (x : spec_float) (m : bool) :
  t !! i = Some x -> mask !! i = Some m ->
  masked_fill t mask v !! i = Some (if m then v else x).
Proof.
  intros Ht Hm. unfold masked_fill. rewrite lookup_zip_with, Ht; simpl.
  by rewrite Hm.
Qed.

Lemma div_lookup32 (l : list spec_float) (d : spec_float) (i : nat)
    (x : spec_float) :
  l !! i = Some x -> div l d !! i = Some (fdiv x d).
Proof. intros H. unfold div. by rewrite list_lookup_fmap, H. Qed.

(** *** Floats and the rationals they stand for *)

Lemma digits2_pos_bounds (m : positive) :
  (2 ^ (Zpos (digits2_pos m) - 1) <= Zpos m < 2 ^ Zpos (digits2_pos m))%Z.
Proof.
  induction m as [m IH|m IH|]; simpl digits2_pos.
  - rewrite Pos2Z.inj_succ.
    replace (Z.succ (Z.pos (digits2_pos m)) - 1)%Z
      with (Z.succ (Z.pos (digits2_pos m) - 1))%Z by lia.
    rewrite !Z.pow_succ_r by lia. lia.
  - rewrite Pos2Z.inj_succ.
    replace (Z.succ (Z.pos (digits2_pos m)) - 1)%Z
      with (Z.succ (Z.pos (digits2_pos m) - 1))%Z by lia.
    rewrite !Z.pow_succ_r by lia. lia.
  - simpl. lia.
Qed.

(** A binary32 mantissa has at most 24 bits, and exactly 24 above the
    smallest exponent. *)
Lemma bounded_inv (m : positive) (e : Z) :
  bounded prec emax m e = true ->
  (-149 <= e)%Z /\ (Zpos m < 2 ^ 24)%Z /\
  ((-149 < e)%Z -> (2 ^ 23 <= Zpos m)%Z).
Proof.
  unfold bounded, canonical_mantissa, fexp, emin, prec, emax.
  intros [Hc _]%andb_true_iff. apply Z.eqb_eq in Hc.
  pose proof (digits2_pos_bounds m) as [Hlo Hhi].
  set (d := Zpos (digits2_pos m)) in *.
  assert (Hd : (0 < d)%Z) by (unfold d; lia).
  split; [lia|]. split.
  - apply Z.lt_le_trans with (2 ^ d)%Z; [done|].
    apply Z.pow_le_mono_r; lia.
  - intros He. replace 23%Z with (d - 1)%Z by lia. done.
Qed.

Lemma scaled_lt_exp (m1 m2 : positive) (e1 e2 : Z) :
  bounded prec emax m1 e1 = true -> bounded prec emax m2 e2 = true ->
  (e1 < e2)%Z ->
  (Zpos m1 * 2 ^ (e1 + 149) < Zpos m2 * 2 ^ (e2 + 149))%Z.
Proof.
  intros (H1 & H1' & _)%bounded_inv (H2 & _ & H2')%bounded_inv He.
  specialize (H2' ltac:(lia)).
  assert (Hp : (0 < 2 ^ (e1 + 149))%Z) by (apply Z.pow_pos_nonneg; lia).
  assert (Hq : (2 * 2 ^ (e1 + 149) <= 2 ^ (e2 + 149))%Z).
  { rewrite <- Z.pow_succ_r by lia. apply Z.pow_le_mono_r; lia. }
  nia.
Qed.

Lemma scaled_compare (m1 m2 : positive) (e1 e2 : Z) :
  bounded prec emax m1 e1 = true -> bounded prec emax m2 e2 = true ->
  match (e1 ?= e2)%Z with
  | Lt => Lt
  | Gt => Gt
  | Eq => Pos.compare_cont Eq m1 m2
  end = (Zpos m1 * 2 ^ (e1 + 149) ?= Zpos m2 * 2 ^ (e2 + 149))%Z.
Proof.
  intros H1 H2. symmetry.
  destruct (Z.compare_spec e1 e2) as [->|He|He].
  - pose proof (bounded_inv _ _ H2) as (He & _).
    assert (Hp : (0 < 2 ^ (e2 + 149))%Z) by (apply Z.pow_pos_nonneg; lia).
    change (Pos.compare_cont Eq m1 m2) with (Zpos m1 ?= Zpos m2)%Z.
    destruct (Z.compare_spec (Zpos m1) (Zpos m2)) as [->|Hm|Hm].
    + apply Z.compare_refl.
    + apply Z.compare_lt_iff. nia.
    + apply Z.compare_gt_iff. nia.
  - apply Z.compare_lt_iff. by apply scaled_lt_exp.
  - apply Z.compare_gt_iff. by apply scaled_lt_exp.
Qed.

Lemma scaled_pos (m : positive) (e : Z) :
  bounded prec emax m e = true -> (0 < Zpos m * 2 ^ (e + 149))%Z.
Proof.
  intros (He & _)%bounded_inv.
  assert (Hp : (0 < 2 ^ (e + 149))%Z) by (apply Z.pow_pos_nonneg; lia).
  nia.
Qed.

(** On binary32 numbers the comparison of the floats is the comparison
    of the rationals they stand for. *)
Lemma SFcompare_scaled (a b : spec_float) :
  number a = true -> number b = true ->
  SFcompare a b = Some (scaled a ?= scaled b)%Z.
Proof.
  destruct a as [sa|sa| |sa ma ea], b as [sb|sb| |sb mb eb]; try done;
    intros Ha Hb; unfold number in *.
  - pose proof (scaled_pos _ _ Hb). unfold SFcompare, scaled.
    destruct sb; cbn [cond_Zopp]; f_equal; symmetry.
    + apply Z.compare_gt_iff. lia.
    + apply Z.compare_lt_iff. lia.
  - pose proof (scaled_pos _ _ Ha). unfold SFcompare, scaled.
    destruct sa; cbn [cond_Zopp]; f_equal; symmetry.
    + apply Z.compare_lt_iff. lia.
    + apply Z.compare_gt_iff. lia.
  - pose proof (scaled_pos _ _ Ha). pose proof (scaled_pos _ _ Hb).
    pose proof (scaled_compare _ _ _ _ Ha Hb) as Hc.
    unfold SFcompare, scaled.
    destruct sa, sb; cbn [cond_Zopp]; f_equal.
    + assert (Hopp : (- Z.pos ma * 2 ^ (ea + 149)
                      ?= - Z.pos mb * 2 ^ (eb + 149))%Z
                     = CompOpp (Z.pos ma * 2 ^ (ea + 149)
                                ?= Z.pos mb * 2 ^ (eb + 149))%Z).
      { destruct (Z.compare_spec (Z.pos ma * 2 ^ (ea + 149))
                    (Z.pos mb * 2 ^ (eb + 149))) as [E|E|E]; simpl.
        - apply Z.compare_eq_iff. lia.
        - apply Z.compare_gt_iff. lia.
        - apply Z.compare_lt_iff. lia. }
      rewrite Hopp, <- Hc. by destruct (ea ?= eb)%Z.
    + symmetry. apply Z.compare_lt_iff. lia.
    + symmetry. apply Z.compare_gt_iff. lia.
    + exact Hc.
Qed.

Lemma gtb_to_Q (a b : spec_float) :
  number a = true -> number b = true ->
  gtb a b = Tensor.Qgtb (to_Q a) (to_Q b).
Proof.
  intros Ha Hb. unfold gtb, SFltb. rewrite (SFcompare_scaled b a) by done.
  unfold Tensor.Qgtb, Qle_bool, to_Q. simpl Qnum. simpl Qden.
  destruct (Z.compare_spec (scaled b) (scaled a)) as [E|E|E]; symmetry.
  - rewrite E. apply negb_false_iff, Z.leb_refl.
  - apply negb_true_iff, Z.leb_gt. nia.
  - apply negb_false_iff, Z.leb_le. nia.
Qed.

(** *** The sort *)

Lemma insert_desc_perm32 (x : spec_float * nat) (l : list (spec_float * nat)) :
  Permutation (insert_desc x l) (x :: l).
Proof.
  induction l as [|y l IH]; simpl; [done|].
  destruct (SFleb y.1 x.1); [done|].
  rewrite IH. apply perm_swap.
Qed.

Lemma sort_pairs_perm32 (l : list (spec_float * nat)) :
  Permutation (sort_pairs l) l.
Proof.
  induction l as [|x l IH]; simpl; [done|].
  rewrite insert_desc_perm32. by constructor.
Qed.

Lemma insert_desc_sorted32 (x : spec_float * nat)
    (l : list (spec_float * nat)) :
  x.1 <> S754_nan -> Forall (fun y => y.1 <> S754_nan) l ->
  Sorted (fun a b => SFleb b.1 a.1 = true) l ->
  Sorted (fun a b => SFleb b.1 a.1 = true) (insert_desc x l).
Proof.
  intros Hx Hl Hs. induction Hs as [|y l Hs IH Hy]; simpl.
  - repeat constructor.
  - apply Forall_cons in Hl as [Hyn Hl].
    destruct (SFleb y.1 x.1) eqn:E.
    + constructor; [by constructor|]. by constructor.
    + constructor; [by apply IH|].
      destruct l as [|z l]; simpl.
      * constructor. by apply SFleb_total.
      * destruct (SFleb z.1 x.1).
        -- constructor. by apply SFleb_total.
        -- constructor. by apply HdRel_inv in Hy.
Qed.

Lemma sort_pairs_sorted32 (l : list (spec_float * nat)) :
  Forall (fun y => y.1 <> S754_nan) l ->
  Sorted (fun a b => SFleb b.1 a.1 = true) (sort_pairs l).
Proof.
  induction 1 as [|x l Hx Hl IH]; simpl; [constructor|].
  apply insert_desc_sorted32; [done| |done].
  by rewrite sort_pairs_perm32.
Qed.

Lemma indexed_fst32 (t : list spec_float) : (indexed t).*1 = t.
Proof. unfold indexed. apply fst_zip. by rewrite length_seq. Qed.

Lemma indexed_snd32 (t : list spec_float) : (indexed t).*2 = seq 0 (length t).
Proof. unfold indexed. apply snd_zip. by rewrite length_seq. Qed.

Lemma indexed_elem32 (t : list spec_float) (v : spec_float) (k : nat) :
  (v, k) ∈ indexed t -> t !! k = Some v.
Proof.
  intros [i Hi]%list_elem_of_lookup. unfold indexed in Hi.
  apply lookup_zip_with_Some in Hi as (x & j & [= -> ->] & Hx & Hj).
  apply lookup_seq in Hj as [-> _]. exact Hx.
Qed.

Lemma sort_desc_length32 (t : list spec_float) :
  length (sort_desc t).1 = length t /\ length (sort_desc t).2 = length t.
Proof.
  unfold sort_desc; simpl. rewrite !length_fmap.
  rewrite (Permutation_length (sort_pairs_perm32 _)).
  unfold indexed. rewrite length_zip, length_seq. lia.
Qed.

Lemma sort_desc_values_perm32 (t : list spec_float) :
  Permutation (sort_desc t).1 t.
Proof.
  unfold sort_desc; simpl.
  rewrite (sort_pairs_perm32 (indexed t)). by rewrite indexed_fst32.
Qed.

Lemma sort_desc_idx_perm32 (t : list spec_float) :
  Permutation (sort_desc t).2 (seq 0 (length t)).
Proof.
  unfold sort_desc; simpl.
  rewrite (sort_pairs_perm32 (indexed t)). by rewrite indexed_snd32.
Qed.

Lemma sort_desc_sorted32 (t : list spec_float) :
  Forall (fun x => x <> S754_nan) t ->
  Sorted (fun a b => SFleb b a = true) (sort_desc t).1.
Proof.
  intros Ht. unfold sort_desc; simpl.
  assert (Hs : Sorted (fun a b => SFleb b.1 a.1 = true)
                 (sort_pairs (indexed t))).
  { apply sort_pairs_sorted32.
    apply Forall_forall. intros [v k] Hv%indexed_elem32. simpl.
    rewrite Forall_forall in Ht. apply Ht. by eapply list_elem_of_lookup_2. }
  induction Hs as [|y l Hs IH Hy]; simpl; [constructor|].
  constructor; [exact IH|].
  destruct Hy; simpl; by constructor.
Qed.

Lemma sort_desc_gather32 (t : list spec_float) (i k : nat) :
  (sort_desc t).2 !! i = Some k -> (sort_desc t).1 !! i = t !! k.
Proof.
  unfold sort_desc; simpl. rewrite !list_lookup_fmap.
  destruct (sort_pairs (indexed t) !! i) as [[v k']|] eqn:E; simpl; [|done].
  intros [= ->]. symmetry. apply indexed_elem32.
  rewrite <- (sort_pairs_perm32 (indexed t)).
  by eapply list_elem_of_lookup_2.
Qed.

Lemma sample_top_p_unfold32 {rng} (red : Reductions)
    (multinomial : list spec_float -> rng -> option nat * rng)
    (probs : list spec_float) (p : spec_float) (g : rng) :
  sample_top_p red multinomial probs p g =
  (let '(d, g') :=
     multinomial (top_p_weights red (sort_desc probs).1 p) g in
   (d ≫= Tensor.gather (sort_desc probs).2, g')).
Proof. reflexivity. Qed.

End Float32Facts.

(** C1 (as amended). On a float32 row without negative or NaN entries
    [sample_top_p] sorts the row in descending order (with the index
    of every sorted entry), takes the running totals [torch.cumsum]
    answers, one for every entry, and excludes exactly the sorted
    entries for which the rounded difference of the running total and
    the entry exceeds [p].  Where that difference is the exact sum of
    the entries before the entry, the entry is excluded exactly when
    the mass before it exceeds [p].  The excluded entries are set to
    zero, every entry is divided by the total [torch.sum] answers for
    what is left, one index is drawn with [multinomial] on these
    weights, and the drawn index is mapped through the sort indices to
    a vocabulary id.  This holds however torch accumulates the two
    reductions. *)
Theorem sample_top_p_float32 {rng : Type} (red : F32.Reductions)
    (multinomial : list spec_float -> rng -> option nat * rng)
    (probs : list spec_float) (p : spec_float) (g : rng) :
  Forall F32.nonneg probs ->
  length (F32.cumsum red (F32.sort_desc probs).1) = length probs ->
  let probs_sort := (F32.sort_desc probs).1 in
  let probs_idx := (F32.sort_desc probs).2 in
  let probs_sum := F32.cumsum red probs_sort in
  let mask := F32.top_p_mask red probs_sort p in
  let kept := F32.masked_fill probs_sort mask F32.zero in
  let weights := F32.top_p_weights red probs_sort p in
  (* the sort *)
  Sorted (fun a b => SFleb b a = true) probs_sort /\
  Permutation probs_idx (seq 0 (length probs)) /\
  (forall i k, probs_idx !! i = Some k -> probs_sort !! i = probs !! k) /\
  (* the exclusion *)
  length mask = length probs /\
  (forall i c x, probs_sum !! i = Some c -> probs_sort !! i = Some x ->
     mask !! i = Some (F32.gtb (F32.fsub c x) p)) /\
  (forall i c x, probs_sum !! i = Some c -> probs_sort !! i = Some x ->
     F32.number (F32.fsub c x) = true -> F32.number p = true ->
     (F32.to_Q (F32.fsub c x)
      == Tensor.sum (take i (F32.to_Q <$> probs_sort)))%Q ->
     (mask !! i = Some true
      <-> (F32.to_Q p < Tensor.sum (take i (F32.to_Q <$> probs_sort)))%Q)) /\
  (* zeroing and division *)
  (forall i, mask !! i = Some true -> kept !! i = Some F32.zero) /\
  (forall i, mask !! i = Some false -> kept !! i = probs_sort !! i) /\
  length weights = length probs /\
  (forall i x, kept !! i = Some x ->
     weights !! i = Some (F32.fdiv x (F32.sum red kept))) /\
  (* the draw and the way back to the vocabulary *)
  F32.sample_top_p red multinomial probs p g =
    (let '(d, g') := multinomial weights g in (d ≫= (probs_idx !!.), g')).
Proof.
  intros Hnn Hsum probs_sort probs_idx probs_sum mask kept weights.
  pose proof (sort_desc_length32 probs) as [Hlen _].
  fold probs_sort in Hlen, Hsum.
  assert (Hmask : length mask = length probs).
  { unfold mask, F32.top_p_mask. rewrite length_zip_with. lia. }
  split.
  { apply sort_desc_sorted32. eapply Forall_impl; [exact Hnn|].
    apply nonneg_not_nan. }
  split; [apply sort_desc_idx_perm32|].
  split; [apply sort_desc_gather32|].
  split; [exact Hmask|].
  split; [intros i c x; apply top_p_mask_lookup32|].
  split.
  { intros i c x Hc Hx Hd Hp Hexact. unfold mask.
    rewrite (top_p_mask_lookup32 _ _ _ _ _ _ Hc Hx).
    rewrite gtb_to_Q by done. rewrite <- Qgtb_true.
    rewrite (Qgtb_proper _ _ Hexact _ _ (Qeq_refl _)).
    split; [by intros [= ->] | by intros ->]. }
  split.
  { intros i Hm.
    destruct (top_p_mask_entry _ _ _ _ _ Hm) as (c & x & _ & Hx & _).
    unfold kept. by rewrite (masked_fill_lookup32 _ _ _ _ _ _ Hx Hm). }
  split.
  { intros i Hm.
    destruct (top_p_mask_entry _ _ _ _ _ Hm) as (c & x & _ & Hx & _).
    unfold kept. by rewrite (masked_fill_lookup32 _ _ _ _ _ _ Hx Hm). }
  split.
  { unfold weights, F32.top_p_weights, F32.div, F32.masked_fill.
    fold mask. rewrite length_fmap, length_zip_with. lia. }
  split; [intros i x Hx; by apply div_lookup32|].
  apply sample_top_p_unfold32.
Qed.

(** X2. A draw that lands on an entry of positive weight never selects
    an excluded entry: [sample_top_p] then answers a vocabulary id of
    positive probability whose sorted entry was not excluded, however
    the reductions are accumulated. *)
Theorem sample_top_p_support {rng : Type} (red : F32.Reductions)
    (multinomial : list spec_float -> rng -> option nat * rng)
    (probs : list spec_float) (p : spec_float) (g g' : rng) (d : nat)
    (w : spec_float) :
  Forall F32.nonneg probs ->
  let probs_sort := (F32.sort_desc probs).1 in
  let weights := F32.top_p_weights red probs_sort p in
  multinomial weights g = (Some d, g') ->
  weights !! d = Some w -> F32.gtb w F32.zero = true ->
  exists k x,
    F32.sample_top_p red multinomial probs p g = (Some k, g') /\
    probs !! k = Some x /\ F32.gtb x F32.zero = true /\
    probs_sort !! d = Some x /\
    F32.top_p_mask red probs_sort p !! d = Some false.
Proof.
  intros Hnn probs_sort weights Hdraw Hw Hpos.
  pose proof (sort_desc_length32 probs) as [Hlen Hlen'].
  fold probs_sort in Hlen.
  unfold weights, F32.top_p_weights, F32.div in Hw.
  rewrite list_lookup_fmap in Hw.
  destruct (F32.masked_fill probs_sort (F32.top_p_mask red probs_sort p)
              F32.zero !! d) as [y|] eqn:Hy; [|done].
  injection Hw as <-.
  unfold F32.masked_fill in Hy.
  apply lookup_zip_with_Some in Hy as (x & m & -> & Hx & Hm).
  assert (Hd : d < length probs) by (apply lookup_lt_Some in Hx; lia).
  destruct (lookup_lt_is_Some_2 (F32.sort_desc probs).2 d) as [k Hk]; [lia|].
  pose proof (sort_desc_gather32 probs d k Hk) as Hg.
  fold probs_sort in Hg. rewrite Hx in Hg.
  destruct m.
  { by rewrite (fdiv_zero_not_above false) in Hpos. }
  exists k, x. split.
  { rewrite sample_top_p_unfold32. fold probs_sort weights.
    rewrite Hdraw.
    change (Some d ≫= Tensor.gather (F32.sort_desc probs).2)
      with ((F32.sort_desc probs).2 !! d). by rewrite Hk. }
  split; [done|]. split; [|done].
  apply nonneg_positive.
  - rewrite Forall_forall in Hnn. apply Hnn.
    by eapply list_elem_of_lookup_2.
  - intros s ->. by rewrite fdiv_zero_not_above in Hpos.
Qed.

(** X3. The first running total is the first sorted entry itself, and
    an entry less itself is a zero (or NaN) whatever the rounding: a
    threshold that is not negative never excludes the first sorted
    entry, so that the kept set is not empty; a negative threshold
    excludes a finite first entry. *)
Theorem top_entry_never_excluded (red : F32.Reductions)
    (probs_sort : list spec_float) (x p : spec_float) :
  probs_sort !! 0 = Some x ->
  F32.cumsum red probs_sort !! 0 = Some x ->
  let mask := F32.top_p_mask red probs_sort p in
  (SFltb p F32.zero = false ->
   mask !! 0 = Some false /\
   F32.masked_fill probs_sort mask F32.zero !! 0 = Some x) /\
  (SFltb p F32.zero = true -> (exists s m e, x = S754_finite s m e) ->
   mask !! 0 = Some true /\
   F32.masked_fill probs_sort mask F32.zero !! 0 = Some F32.zero).
Proof.
  intros Hx Hc mask.
  assert (Hm : mask !! 0 = Some (F32.gtb (F32.fsub x x) p))
    by (by apply top_p_mask_lookup32).
  split.
  - intros Hp. rewrite fsub_diag_not_above in Hm by done.
    split; [done|]. by rewrite (masked_fill_lookup32 _ _ _ _ _ _ Hx Hm).
  - intros Hp Hfin. rewrite fsub_diag_above in Hm by done.
    split; [done|]. by rewrite (masked_fill_lookup32 _ _ _ _ _ _ Hx Hm).
Qed.

(** ** The decode loop, step by step *)

Section EngineFacts.

Context {rng cache Message ToolPromptFormat CompletionMessage : Type}.
Variable torch : Torch rng.
Variable self : Llama cache Message ToolPromptFormat CompletionMessage.

Implicit Types (fr : frame) (s : sys rng cache) (evs : list event).

Lemma run_eta {A} (r : run rng cache A) :
  Run (outcome r) (events r) (final r) = r.
Proof. by destruct r. Qed.

Lemma yields_app evs1 evs2 : yields (evs1 ++ evs2) = yields evs1 ++ yields evs2.
Proof. apply omap_app. Qed.

Lemma yields_cons (e : event) evs :
  yields (e :: evs)
  = match e with Yield r => r :: yields evs | _ => yields evs end.
Proof. by destruct e. Qed.

Lemma forward_calls_cons (e : event) evs :
  forward_calls (e :: evs)
  = match e with
    | Forward w p _ => (w, p) :: forward_calls evs
    | _ => forward_calls evs
    end.
Proof. by destruct e. Qed.

Lemma sampler_calls_cons (e : event) evs :
  sampler_calls (e :: evs)
  = match e with
    | SampleTopP q p => (q, p) :: sampler_calls evs
    | _ => sampler_calls evs
    end.
Proof. by destruct e. Qed.

Lemma forward_calls_app evs1 evs2 :
  forward_calls (evs1 ++ evs2) = forward_calls evs1 ++ forward_calls evs2.
Proof. apply omap_app. Qed.

Lemma sampler_calls_app evs1 evs2 :
  sampler_calls (evs1 ++ evs2) = sampler_calls evs1 ++ sampler_calls evs2.
Proof. apply omap_app. Qed.

(** *** The choice of the next token *)

Lemma next_token_of_greedy (temperature top_p : Q) (row : list Q) s :
  (temperature <= 0)%Q ->
  next_token_of torch temperature top_p row s =
  Run (match Tensor.argmax row with
       | Some i => Ok i
       | None => Raise RuntimeError
       end) [] s.
Proof.
  intros HT. unfold next_token_of.
  apply Qgtb_false in HT. rewrite HT.
  by destruct (Tensor.argmax row).
Qed.

Lemma next_token_of_sampled (temperature top_p : Q) (row : list Q) s :
  (0 < temperature)%Q ->
  next_token_of torch temperature top_p row s =
  call_sample_top_p torch
    (softmax torch ((fun x => (x / temperature)%Q) <$> row)) top_p s.
Proof.
  intros HT. unfold next_token_of.
  apply Qgtb_true in HT. by rewrite HT.
Qed.

(** Whatever the path, choosing a token yields nothing, makes no
    forward pass and leaves the model alone. *)
Lemma next_token_of_quiet (temperature top_p : Q) (row : list Q) s :
  let r := next_token_of torch temperature top_p row s in
  yields (events r) = [] /\ forward_calls (events r) = [] /\
  model_state (final r) = model_state s.
Proof.
  unfold next_token_of.
  destruct (Tensor.Qgtb temperature 0).
  - unfold call_sample_top_p.
    by destruct (sample_top_p _ _ _ _) as [[k|] g].
  - by destruct (Tensor.argmax row).
Qed.

(** *** One iteration *)

Section Step.

Variables (input_text_mask : list bool) (temperature top_p : Q)
          (logprobs : bool) (cur_pos : nat) (fr : frame) (s : sys rng cache).

Let window := Tensor.slice (tokens fr) (prev_pos fr) cur_pos.

Lemma decode_step_spec :
  step_spec torch self input_text_mask temperature top_p logprobs cur_pos
    fr s
    (decode_step torch self input_text_mask temperature top_p
       logprobs cur_pos fr s).
Proof.
  unfold decode_step, bind, call_forward. fold window.
  destruct (forward _ window _ _) as [logits c] eqn:Hf.
  cbn [outcome events final].
  destruct (last logits) as [row|] eqn:Hl; cbn [require outcome events final ret raise].
  - destruct (next_token_of torch temperature top_p row _)
      as [[k|e] evs s'] eqn:Hn; cbn [outcome events final].
    + pose proof (step_token torch self input_text_mask temperature top_p
                    logprobs cur_pos fr s logits c row k evs s' Hf Hl Hn)
        as H.
      cbv zeta in H.
      destruct (place_token torch self input_text_mask logprobs cur_pos
                  fr logits k) as [fr' result].
      cbn [outcome events final emit ret fst snd app] in *.
      exact H.
    + by eapply step_no_token.
  - by apply step_no_logits.
Qed.

End Step.

(** What [place_token] stores and reports. *)
Section PlaceToken.

Variables (input_text_mask : list bool) (logprobs : bool) (cur_pos : nat)
          (fr : frame) (logits : list (list Q)) (k : nat).

Let placed :=
  place_token torch self input_text_mask logprobs cur_pos fr logits k.

Lemma place_token_tokens :
  tokens placed.1 = <[cur_pos := TokenResult.token placed.2]> (tokens fr).
Proof. reflexivity. Qed.

Lemma place_token_prev_pos : prev_pos placed.1 = cur_pos.
Proof. reflexivity. Qed.

Lemma place_token_text :
  TokenResult.text placed.2
  = decode (tokenizer self) [TokenResult.token placed.2].
Proof. reflexivity. Qed.

Lemma place_token_eos :
  eos_reached placed.1 =
  eos_reached fr
  || (negb (input_text_mask !!! cur_pos : bool)
      && bool_decide (TokenResult.token placed.2
                      ∈ stop_tokens (tokenizer self))).
Proof. reflexivity. Qed.


Lemma place_token_free :
  (input_text_mask !!! cur_pos : bool) = false ->
  TokenResult.token placed.2 = Z.of_nat k.
Proof. intros Hm. unfold placed, place_token; simpl. by rewrite Hm. Qed.

End PlaceToken.

(** *** The loop *)

Section Loop.

Variables (input_text_mask : list bool) (temperature top_p : Q)
          (logprobs : bool).

Let step := decode_step torch self input_text_mask temperature top_p logprobs.
Let loop := decode_loop torch self input_text_mask temperature top_p logprobs.

(** An iteration that completes yields one result, made by
    [place_token], after one forward pass over the window that ends
    before [cur_pos]. *)
Lemma decode_step_ok cur_pos fr s fr' evs s' :
  step cur_pos fr s = Run (Ok fr') evs s' ->
  exists logits k,
    let placed :=
      place_token torch self input_text_mask logprobs cur_pos fr logits k in
    fr' = placed.1 /\ yields evs = [placed.2] /\
    forward_calls evs
      = [(Tensor.slice (tokens fr) (prev_pos fr) cur_pos, prev_pos fr)].
Proof.
  intros Hs. pose proof (decode_step_spec input_text_mask temperature
                           top_p logprobs cur_pos fr s) as H.
  fold step in H. rewrite Hs in H.
  inversion H as [| |logits c row k evs0 s0 Hf Hl Hn placed]; subst.
  exists logits, k. split; [done|].
  pose proof (next_token_of_quiet temperature top_p row
                (Sys (rng_state s) c)) as (Hy & Hc & _).
  rewrite Hn in Hy, Hc. simpl in Hy, Hc.
  by rewrite yields_cons, forward_calls_cons, yields_app,
    forward_calls_app, Hy, Hc.
Qed.

(** An iteration that raises has made its forward pass and yielded
    nothing. *)
Lemma decode_step_raise cur_pos fr s e evs s' :
  step cur_pos fr s = Run (Raise e) evs s' ->
  yields evs = [] /\
  forward_calls evs
    = [(Tensor.slice (tokens fr) (prev_pos fr) cur_pos, prev_pos fr)].
Proof.
  intros Hs. pose proof (decode_step_spec input_text_mask temperature
                           top_p logprobs cur_pos fr s) as H.
  fold step in H. rewrite Hs in H.
  inversion H as [logits c Hf Hl|logits c row e0 evs0 s0 Hf Hl Hn|]; subst.
  - done.
  - pose proof (next_token_of_quiet temperature top_p row
                  (Sys (rng_state s) c)) as (Hy & Hc & _).
    rewrite Hn in Hy, Hc. simpl in Hy, Hc.
    by rewrite yields_cons, forward_calls_cons, Hy, Hc.
Qed.

Lemma decode_loop_spec positions fr s :
  loop_spec torch self input_text_mask temperature top_p logprobs
    positions fr s (loop positions fr s).
Proof.
  revert fr s. induction positions as [|cur_pos rest IH]; intros fr s.
  - apply loop_done.
  - unfold loop. cbn [decode_loop]. unfold bind. fold step. fold loop.
    destruct (step cur_pos fr s) as [[fr'|e] evs s'] eqn:Hs;
      cbn [outcome events final].
    + destruct (eos_reached fr') eqn:He.
      * cbn [ret outcome events final]. rewrite app_nil_r.
        by eapply loop_break.
      * by eapply loop_next.
    + by eapply loop_raise.
Qed.

(** Never more results than positions. *)
Lemma loop_yields_le positions fr s r :
  loop_spec torch self input_text_mask temperature top_p logprobs
    positions fr s r ->
  length (yields (events r)) <= length positions.
Proof.
  induction 1 as [fr s|cur_pos rest fr s e evs s' Hs
                 |cur_pos rest fr s fr' evs s' Hs He
                 |cur_pos rest fr s fr' evs s' r Hs He _ IH];
    cbn [events length].
  - simpl; lia.
  - apply decode_step_raise in Hs as [-> _]. simpl; lia.
  - apply decode_step_ok in Hs as (logits & k & _ & -> & _). simpl; lia.
  - apply decode_step_ok in Hs as (logits & k & _ & Hy & _).
    rewrite yields_app, Hy, length_app. simpl. lia.
Qed.

(** Positions below every visited position keep their tokens, and the
    buffer keeps its length. *)
Lemma loop_tokens_prefix positions fr s r :
  loop_spec torch self input_text_mask temperature top_p logprobs
    positions fr s r ->
  forall fr' L, outcome r = Ok fr' -> Forall (fun pos => L <= pos) positions ->
  take L (tokens fr') = take L (tokens fr) /\
  length (tokens fr') = length (tokens fr).
Proof.
  induction 1 as [fr s|cur_pos rest fr s e evs s' Hs
                 |cur_pos rest fr s fr' evs s' Hs He
                 |cur_pos rest fr s fr' evs s' r Hs He _ IH];
    cbn [outcome]; intros fr2 L Ho Hpos.
  - by injection Ho as <-.
  - done.
  - injection Ho as <-.
    apply decode_step_ok in Hs as (logits & k & -> & _ & _).
    apply Forall_cons in Hpos as [Hcur _].
    rewrite place_token_tokens, length_insert. split; [|done].
    by apply take_insert_ge.
  - apply decode_step_ok in Hs as (logits & k & -> & _ & _).
    apply Forall_cons in Hpos as [Hcur Hrest].
    destruct (IH fr2 L Ho Hrest) as [-> ->].
    rewrite place_token_tokens, length_insert. split; [|done].
    by apply take_insert_ge.
Qed.

(** Started with the stop flag down, the loop uses up its positions
    unless its last iteration wrote a stop token at a position that
    the prompt mask does not cover. *)
Lemma loop_stop positions fr s r :
  loop_spec torch self input_text_mask temperature top_p logprobs
    positions fr s r ->
  forall fr', eos_reached fr = false -> outcome r = Ok fr' ->
  let n := length (yields (events r)) in
  (eos_reached fr' = false -> n = length positions) /\
  (eos_reached fr' = true ->
   exists tr pos,
     last (yields (events r)) = Some tr /\
     0 < n /\ positions !! (n - 1) = Some pos /\
     (input_text_mask !!! pos : bool) = false /\
     TokenResult.token tr ∈ stop_tokens (tokenizer self) /\
     (pos < length (tokens fr') -> tokens fr' !! pos = Some (TokenResult.token tr))).
Proof.
  induction 1 as [fr s|cur_pos rest fr s e evs s' Hs
                 |cur_pos rest fr s fr' evs s' Hs He
                 |cur_pos rest fr s fr' evs s' r Hs He _ IH];
    cbn [outcome events]; intros fr2 He0 Ho.
  - injection Ho as <-. split; [done | congruence].
  - done.
  - injection Ho as <-.
    apply decode_step_ok in Hs as (logits & k & Hfr & Hy & _).
    rewrite Hy. split; [congruence|]. intros _.
    subst fr'. rewrite place_token_eos, He0 in He. simpl in He.
    apply andb_true_iff in He as [Hm Hstop].
    apply negb_true_iff in Hm. apply bool_decide_eq_true in Hstop.
    eexists _, cur_pos. repeat split; [simpl; lia|done|done|].
    rewrite place_token_tokens, length_insert. intros Hlt.
    by apply list_lookup_insert_eq.
  - apply decode_step_ok in Hs as (logits & k & Hfr & Hy & _).
    destruct (IH fr2 He Ho) as [IH1 IH2].
    rewrite yields_app, Hy, length_app. cbn [length Nat.add].
    split.
    + intros H. by rewrite (IH1 H).
    + intros H. destruct (IH2 H) as (tr & pos & Hl & Hn & Hp & Hrest).
      exists tr, pos. split.
      { rewrite last_app, Hl. done. }
      split; [lia|]. split; [|exact Hrest].
      replace (S (length (yields (events r))) - 1)
        with (S (length (yields (events r)) - 1)) by lia.
      exact Hp.
Qed.

(** While every visited position is outside the prompt mask, a stop
    token can only be the last result, and every result carries the
    decoding of its own token. *)
Lemma loop_stop_last positions fr s r :
  loop_spec torch self input_text_mask temperature top_p logprobs
    positions fr s r ->
  eos_reached fr = false ->
  Forall (fun pos => (input_text_mask !!! pos : bool) = false) positions ->
  (forall i tr, yields (events r) !! i = Some tr ->
     TokenResult.token tr ∈ stop_tokens (tokenizer self) ->
     S i = length (yields (events r))) /\
  Forall (fun tr => TokenResult.text tr
                    = decode (tokenizer self) [TokenResult.token tr])
         (yields (events r)).
Proof.
  induction 1 as [fr s|cur_pos rest fr s e evs s' Hs
                 |cur_pos rest fr s fr' evs s' Hs He
                 |cur_pos rest fr s fr' evs s' r Hs He _ IH];
    cbn [outcome events]; intros He0 Hmask.
  - split; [done | constructor].
  - apply decode_step_raise in Hs as [-> _]. split; [done | constructor].
  - apply decode_step_ok in Hs as (logits & k & Hfr & -> & _).
    split.
    + intros [|i] tr Hi Hstop; [done|]. done.
    + repeat constructor.
  - apply decode_step_ok in Hs as (logits & k & Hfr & Hy & _).
    apply Forall_cons in Hmask as [Hcur Hrest].
    destruct (IH He Hrest) as [IH1 IH2].
    rewrite yields_app, Hy, length_app. cbn [length Nat.add app].
    split.
    + intros [|i] tr Hi Hstop.
      * injection Hi as <-.
        subst fr'. rewrite place_token_eos, He0, Hcur in He.
        simpl in He. by apply bool_decide_eq_false in He.
      * f_equal. by eapply IH1.
    + constructor; [|exact IH2]. reflexivity.
Qed.



End Loop.

(** *** The four ways through [generate] *)

Lemma initial_tokens_eq (t : list Z) (max_gen_len : nat) :
  initial_tokens self t max_gen_len
  = t ++ replicate (total_len self (length t) max_gen_len - length t)
                   (pad_id (tokenizer self)).
Proof.
  unfold initial_tokens, Tensor.set_prefix, Tensor.full.
  by rewrite drop_replicate.
Qed.

Lemma initial_tokens_length (t : list Z) (max_gen_len : nat) :
  length t < max_seq_len (params (model self)) ->
  length (initial_tokens self t max_gen_len) = total_len self (length t) max_gen_len.
Proof.
  intros Hlt. rewrite initial_tokens_eq, length_app, length_replicate.
  unfold total_len. lia.
Qed.

(** Beyond the prompt nothing is marked as prompt; inside it, exactly
    the tokens that differ from the pad id are. *)
Lemma text_mask_beyond (t : list Z) (max_gen_len pos : nat) :
  length t <= pos < total_len self (length t) max_gen_len ->
  (text_mask (pad_id (tokenizer self)) (initial_tokens self t max_gen_len)
     !!! pos : bool) = false.
Proof.
  intros [Hpos Hlt]. rewrite initial_tokens_eq.
  apply list_lookup_total_correct. unfold text_mask.
  rewrite list_lookup_fmap, lookup_app_r by done.
  assert (replicate (total_len self (length t) max_gen_len - length t)
            (pad_id (tokenizer self)) !! (pos - length t)
          = Some (pad_id (tokenizer self))) as ->
    by (apply lookup_replicate; split; [done | lia]).
  simpl. by rewrite Z.eqb_refl.
Qed.


Section Generate.

Variables (model_input : ModelInput) (max_gen_len : nat)
          (temperature top_p : Q) (logprobs : bool).

Let t := ModelInput_tokens model_input.
Let gen := generate torch self model_input max_gen_len temperature top_p
             logprobs.
Let msl := max_seq_len (params (model self)).

Lemma generate_assert s :
  max_batch_size (params (model self)) = 0 ->
  gen s = Run (Raise AssertionError) [] s.
Proof.
  intros Hb. unfold gen, generate, bind, assert. by rewrite Hb.
Qed.

Lemma generate_too_long s :
  1 <= max_batch_size (params (model self)) -> msl <= length t ->
  gen s = Run (Ok None) [Cprint (length t) msl] s.
Proof.
  intros Hb Hl. unfold gen, generate, bind, assert.
  apply Nat.leb_le in Hb as ->. cbn [ret outcome events final app].
  fold t msl. by apply Nat.leb_le in Hl as ->.
Qed.

(** No generation budget: one forward pass over the prompt; the
    log-probabilities it gives stay in the frame. *)
Lemma generate_full_prompt s logits c :
  1 <= max_batch_size (params (model self)) -> length t < msl ->
  max_gen_len = 0 ->
  forward (model self) t 0 (model_state s) = (logits, c) ->
  gen s = Run (Ok (Some (Frame t
                    (Qopp <$> cross_entropy torch logits t
                                (pad_id (tokenizer self)))
                    0 false)))
              [Forward t 0 logits] (Sys (rng_state s) c).
Proof.
  intros Hb Hl Hg Hf. unfold gen, generate, bind, assert.
  apply Nat.leb_le in Hb as ->. cbn [ret outcome events final app].
  fold t msl. apply Nat.leb_gt in Hl as Hl'. rewrite Hl'.
  assert (min (max_gen_len + length t) msl = length t) as -> by lia.
  rewrite Nat.eqb_refl, Nat.sub_diag.
  assert (Tensor.set_prefix
            (Tensor.full (length t) (pad_id (tokenizer self))) t = t) as ->.
  { unfold Tensor.set_prefix, Tensor.full.
    by rewrite drop_replicate, Nat.sub_diag, app_nil_r. }
  unfold call_forward. rewrite Hf. reflexivity.
Qed.

(** With a generation budget the call is the decode loop. *)
Lemma generate_loop s :
  1 <= max_batch_size (params (model self)) -> length t < msl ->
  0 < max_gen_len ->
  let r :=
    decode_loop torch self
      (text_mask (pad_id (tokenizer self)) (initial_tokens self t max_gen_len))
      temperature top_p logprobs
      (seq (length t) (total_len self (length t) max_gen_len - length t))
      (initial_frame self model_input max_gen_len logprobs) s in
  gen s = Run (match outcome r with
               | Ok fr => Ok (Some fr)
               | Raise e => Raise e
               end) (events r) (final r).
Proof.
  intros Hb Hl Hg r. unfold gen, generate, bind, assert.
  apply Nat.leb_le in Hb as ->. cbn [ret outcome events final app].
  fold t msl. apply Nat.leb_gt in Hl as Hl'. rewrite Hl'.
  assert ((length t =? min (max_gen_len + length t) msl) = false) as ->
    by (apply Nat.eqb_neq; lia).
  cbn [ret outcome events final app].
  subst r. unfold initial_frame, initial_tokens, total_len. fold t msl.
  destruct (decode_loop _ _ _ _ _ _ _ _ s) as [[fr|e] evs s'];
    cbn [outcome events final]; by rewrite ?app_nil_r.
Qed.

Lemma generate_cases s :
  generate_spec torch self model_input max_gen_len temperature top_p
    logprobs s (gen s).
Proof.
  destruct (max_batch_size (params (model self))) as [|b] eqn:Hb.
  - rewrite generate_assert by done. by apply generate_asserts.
  - destruct (decide (msl <= length t)) as [Hl|Hl].
    + rewrite generate_too_long by (done || lia).
      apply generate_rejects; unfold t, msl in *; [lia | done].
    + destruct (decide (max_gen_len = 0)) as [Hg|Hg].
      * destruct (forward (model self) t 0 (model_state s))
          as [logits c] eqn:Hf.
        rewrite (generate_full_prompt s logits c) by (done || lia).
        apply generate_scores; unfold t, msl in *; (done || lia).
      * rewrite generate_loop by lia.
        apply generate_decodes; unfold t, msl in *; try lia.
        apply decode_loop_spec.
Qed.

(** The positions the loop visits lie beyond the prompt and inside
    the buffer, and none of them is marked as prompt. *)
Lemma positions_unmasked :
  Forall (fun pos =>
            (text_mask (pad_id (tokenizer self))
               (initial_tokens self t max_gen_len) !!! pos : bool) = false)
         (seq (length t) (total_len self (length t) max_gen_len - length t)).
Proof.
  apply Forall_forall. intros pos [Hge Hlt]%elem_of_seq.
  apply text_mask_beyond. lia.
Qed.


(** Never more results than the generation budget allows. *)
Lemma generate_yields_le s :
  length (yields (events (gen s)))
  <= total_len self (length t) max_gen_len - length t.
Proof.
  destruct (generate_cases s) as [Hb|Hb Hl|logits c Hb Hl Hg Hf|r Hb Hl Hg Hr];
    cbn [events]; try (simpl; lia).
  apply loop_yields_le in Hr. by rewrite length_seq in Hr.
Qed.

(** A stop token is yielded last or not at all, and every result
    carries the decoding of its own token. *)
Lemma generate_stop_last s :
  (forall i tr, yields (events (gen s)) !! i = Some tr ->
     TokenResult.token tr ∈ stop_tokens (tokenizer self) ->
     S i = length (yields (events (gen s)))) /\
  Forall (fun tr => TokenResult.text tr
                    = decode (tokenizer self) [TokenResult.token tr])
         (yields (events (gen s))).
Proof.
  destruct (generate_cases s) as [Hb|Hb Hl|logits c Hb Hl Hg Hf|r Hb Hl Hg Hr];
    cbn [events]; try (split; [done | constructor]).
  eapply loop_stop_last; [exact Hr | done | apply positions_unmasked].
Qed.

End Generate.

End EngineFacts.

(** ** The claims about the decode loop *)

Section DecodeClaims.

Context {rng cache Message ToolPromptFormat CompletionMessage : Type}.
Variable torch : Torch rng.
Variable self : Llama cache Message ToolPromptFormat CompletionMessage.
Variables (model_input : ModelInput) (max_gen_len : nat)
          (temperature top_p : Q) (logprobs : bool).


(** With a budget that is a natural number the decode loop yields at
    most [total_len - min_prompt_len] results; when it completes with
    fewer, its last result is a stop token, stored at the last visited
    position, which lies outside the prompt region and is not covered
    by the prompt mask, and the stop flag it raised ended the loop
    there. *)
Lemma generate_yield_bound (s : sys rng cache) :
  let r := generate torch self model_input max_gen_len temperature top_p
             logprobs s in
  let t := ModelInput_tokens model_input in
  let n := length (yields (events r)) in
  n <= total_len self (length t) max_gen_len - length t /\
  (forall fr,
      outcome r = Ok (Some fr) ->
      n < total_len self (length t) max_gen_len - length t ->
      exists tr,
        last (yields (events r)) = Some tr /\
        TokenResult.token tr ∈ stop_tokens (tokenizer self) /\
        0 < n /\
        tokens fr !! (length t + (n - 1)) = Some (TokenResult.token tr) /\
        (text_mask (pad_id (tokenizer self))
           (initial_tokens self t max_gen_len)
           !!! (length t + (n - 1)) : bool) = false /\
        eos_reached fr = true).
Proof.
  intros r t n.
  split; [apply generate_yields_le|].
  intros fr Ho Hn. subst r n t.
  destruct (generate_cases torch self model_input max_gen_len temperature
              top_p logprobs s) as [Hb|Hb Hl|logits c Hb Hl Hg Hf|r Hb Hl Hg Hr];
    cbn [outcome events] in *; try done.
  - injection Ho as <-. unfold total_len in Hn.
    simpl in Hn. lia.
  - destruct (outcome r) as [fr'|e] eqn:Hor; [|done]. injection Ho as ->.
    pose proof (loop_stop _ _ _ _ _ _ _ _ _ _ Hr fr eq_refl Hor) as [H1 H2].
    rewrite length_seq in H1.
    destruct (eos_reached fr) eqn:He; [|specialize (H1 eq_refl); lia].
    destruct (H2 eq_refl) as (tr & pos & Hlast & Hpos & Hseq & Hm & Hstop & Htok).
    apply lookup_seq in Hseq as [-> Hlt].
    exists tr. repeat split; try done.
    apply Htok.
    pose proof (loop_tokens_prefix _ _ _ _ _ _ _ _ _ _ Hr fr 0 Hor) as [_ Hlen].
    { apply Forall_forall. intros; lia. }
    rewrite Hlen. cbn [initial_frame tokens].
    rewrite initial_tokens_length by done. lia.
Qed.

End DecodeClaims.

(** ** The adapters and the calls that generate nothing *)

Section AdapterClaims.

Context {rng cache Message ToolPromptFormat CompletionMessage : Type}.
Variable torch : Torch rng.
Variable self : Llama cache Message ToolPromptFormat CompletionMessage.

(** What [text_completion] makes of the results of the generator. *)
Lemma text_completion_run (prompt : string) (temperature top_p : Q)
    (max_gen_len : option nat) (logprobs : bool) (s : sys rng cache) :
  let r := generate torch self
             {| ModelInput_tokens := encode (tokenizer self) prompt true false |}
             (resolve_max_gen_len self max_gen_len)
             temperature top_p logprobs s in
  let results := yields (events r) in
  text_completion torch self prompt temperature top_p max_gen_len logprobs s
  = Run (match outcome r with
         | Ok _ =>
             Ok (Prediction.mk
                   (decode (tokenizer self) (TokenResult.token <$> results))
                   (if logprobs then Some (TokenResult.text <$> results)
                    else None)
                   (if logprobs then Some (TokenResult.logprobs <$> results)
                    else None))
         | Raise e => Raise e
         end) (events r) (final r).
Proof.
  intros r results. unfold text_completion, bind, drive. fold r.
  cbn [outcome events final].
  destruct (outcome r) as [o|e]; [|done].
  fold results. destruct logprobs; cbn [ret outcome events final];
    by rewrite app_nil_r.
Qed.

(** C4 (as amended). A prompt whose length reaches the context limit
    is turned away at once: the call prints its message, makes no
    forward pass and yields nothing.  It does not raise: the generator
    ends as a generator that produced no token does, its consumer sees
    the empty list of results, and [text_completion] returns the
    well-formed prediction of the empty token list. *)
Theorem prompt_too_long_ends_quietly (model_input : ModelInput)
    (prompt : string) (max_gen_len : nat) (max_gen_len' : option nat)
    (temperature top_p : Q) (logprobs : bool) (s : sys rng cache) :
  1 <= max_batch_size (params (model self)) ->
  max_seq_len (params (model self)) <= length (ModelInput_tokens model_input) ->
  max_seq_len (params (model self))
    <= length (encode (tokenizer self) prompt true false) ->
  let gen := generate torch self model_input max_gen_len temperature top_p
               logprobs in
  events (gen s) = [Cprint (length (ModelInput_tokens model_input))
                           (max_seq_len (params (model self)))] /\
  forward_calls (events (gen s)) = [] /\
  yields (events (gen s)) = [] /\
  outcome (gen s) = Ok None /\
  final (gen s) = s /\
  outcome (drive gen s) = Ok [] /\
  outcome (text_completion torch self prompt temperature top_p max_gen_len'
             logprobs s)
  = Ok (Prediction.mk (decode (tokenizer self) [])
          (if logprobs then Some [] else None)
          (if logprobs then Some [] else None)).
Proof.
  intros Hb Hl Hl' gen. subst gen. unfold drive.
  rewrite text_completion_run.
  rewrite !generate_too_long by done.
  cbn [outcome events final]. by destruct logprobs.
Qed.

End AdapterClaims.

(** ** The stop reason of a chat completion *)

Section StopReasonFacts.

Implicit Types (st : option StopReason * nat) (tr : TokenResult.t).

Lemma track_stop_reason_other st tr :
  ~ is_marker (TokenResult.text tr) -> track_stop_reason st tr = st.
Proof.
  intros H. unfold track_stop_reason.
  destruct (String.eqb_spec (TokenResult.text tr) "<|eot_id|>") as [E|_];
    [destruct H; by left|].
  destruct (String.eqb_spec (TokenResult.text tr) "<|eom_id|>") as [E|_];
    [destruct H; by right|].
  done.
Qed.

Lemma foldl_track_no_marker st (l : list TokenResult.t) :
  Forall (fun tr => ~ is_marker (TokenResult.text tr)) l ->
  foldl track_stop_reason st l = st.
Proof.
  induction 1 as [|tr l Htr _ IH]; [done|].
  simpl. by rewrite track_stop_reason_other.
Qed.

(** When only the last result can be a marker, the stop reason is
    assigned once and says which marker, if any, was seen. *)
Lemma final_stop_reason_last (l : list TokenResult.t) :
  (forall i tr, l !! i = Some tr -> is_marker (TokenResult.text tr) ->
     S i = length l) ->
  let texts := TokenResult.text <$> l in
  ("<|eot_id|>" ∈ texts -> (final_stop_reason l).1 = end_of_turn) /\
  ("<|eom_id|>" ∈ texts -> (final_stop_reason l).1 = end_of_message) /\
  ("<|eot_id|>" ∉ texts -> "<|eom_id|>" ∉ texts ->
     (final_stop_reason l).1 = out_of_tokens) /\
  ~ ("<|eot_id|>" ∈ texts /\ "<|eom_id|>" ∈ texts) /\
  (final_stop_reason l).2 = 1.
Proof.
  intros Hlast texts. subst texts.
  destruct l as [|x l0 _] using rev_ind.
  { cbn. repeat split; try done; try (by intros ?%elem_of_nil).
    by intros [?%elem_of_nil _]. }
  assert (Hinit : Forall (fun tr => ~ is_marker (TokenResult.text tr)) l0).
  { apply Forall_lookup. intros i tr Hi Hm.
    specialize (Hlast i tr). rewrite lookup_app_l in Hlast
      by (by eapply lookup_lt_Some).
    specialize (Hlast Hi Hm). rewrite length_app in Hlast. simpl in Hlast.
    apply lookup_lt_Some in Hi. lia. }
  assert (Hmem : forall m, is_marker m ->
            m ∈ TokenResult.text <$> (l0 ++ [x]) <-> TokenResult.text x = m).
  { intros m Hm. rewrite fmap_app, elem_of_app. simpl.
    rewrite list_elem_of_singleton. split; [|by right].
    intros [Hin| ->]; [|done].
    apply list_elem_of_fmap in Hin as (tr & -> & Htr).
    rewrite Forall_forall in Hinit. by destruct (Hinit tr Htr). }
  rewrite !(Hmem "<|eot_id|>") by (by left).
  rewrite !(Hmem "<|eom_id|>") by (by right).
  unfold final_stop_reason.
  rewrite foldl_app, (foldl_track_no_marker _ _ Hinit).
  cbn [foldl]. unfold track_stop_reason. cbn [snd].
  destruct (String.eqb_spec (TokenResult.text x) "<|eot_id|>") as [E1|N1].
  { rewrite E1. repeat split; try done. by intros [_ ?]. }
  destruct (String.eqb_spec (TokenResult.text x) "<|eom_id|>") as [E2|N2].
  { rewrite E2. repeat split; try done. by intros [? _]. }
  repeat split; try done. by intros [? _].
Qed.

End StopReasonFacts.

Section ChatClaims.

Context {rng cache Message ToolPromptFormat CompletionMessage : Type}.
Variable torch : Torch rng.
Variable self : Llama cache Message ToolPromptFormat CompletionMessage.

Lemma chat_completion_run (messages : list Message) (temperature top_p : Q)
    (max_gen_len : option nat) (logprobs : bool)
    (tool_prompt_format : ToolPromptFormat) (s : sys rng cache) :
  let r := generate torch self
             (encode_dialog_prompt (formatter self) messages tool_prompt_format)
             (resolve_max_gen_len self max_gen_len)
             temperature top_p logprobs s in
  let results := yields (events r) in
  chat_completion torch self messages temperature top_p max_gen_len logprobs
    tool_prompt_format s
  = Run (match outcome r with
         | Ok _ =>
             Ok (Prediction.mk
                   (decode_assistant_message (formatter self)
                      (TokenResult.token <$> results)
                      (final_stop_reason results).1)
                   (if logprobs then Some (TokenResult.text <$> results)
                    else None)
                   (if logprobs then Some (TokenResult.logprobs <$> results)
                    else None))
         | Raise e => Raise e
         end) (events r) (final r).
Proof.
  intros r results. unfold chat_completion, bind, drive. fold r.
  cbn [outcome events final].
  destruct (outcome r) as [o|e]; [|done].
  fold results. destruct logprobs; cbn [ret outcome events final];
    by rewrite app_nil_r.
Qed.

(** C7. With a tokenizer whose two end markers are decodings of stop
    tokens only, the stop reason of a chat completion is [end_of_turn]
    if the text of an emitted token is the end-of-turn marker,
    [end_of_message] if it is the end-of-message marker and
    [out_of_tokens] if neither marker was seen; the two markers are
    never both seen, the stop reason is assigned exactly once, and it
    is the one handed to [decode_assistant_message]. *)
Theorem chat_stop_reason (messages : list Message) (temperature top_p : Q)
    (max_gen_len : option nat) (logprobs : bool)
    (tool_prompt_format : ToolPromptFormat) (s : sys rng cache) :
  (forall tk, is_marker (decode (tokenizer self) [tk]) ->
              tk ∈ stop_tokens (tokenizer self)) ->
  let r := generate torch self
             (encode_dialog_prompt (formatter self) messages tool_prompt_format)
             (resolve_max_gen_len self max_gen_len)
             temperature top_p logprobs s in
  let results := yields (events r) in
  let texts := TokenResult.text <$> results in
  let stop_reason := (final_stop_reason results).1 in
  let assignments := (final_stop_reason results).2 in
  ("<|eot_id|>" ∈ texts -> stop_reason = end_of_turn) /\
  ("<|eom_id|>" ∈ texts -> stop_reason = end_of_message) /\
  ("<|eot_id|>" ∉ texts -> "<|eom_id|>" ∉ texts ->
     stop_reason = out_of_tokens) /\
  ~ ("<|eot_id|>" ∈ texts /\ "<|eom_id|>" ∈ texts) /\
  assignments = 1 /\
  (forall pr,
      outcome (chat_completion torch self messages temperature top_p
                 max_gen_len logprobs tool_prompt_format s) = Ok pr ->
      Prediction.generation pr
      = decode_assistant_message (formatter self)
          (TokenResult.token <$> results) stop_reason).
Proof.
  intros Hmarkers r results texts stop_reason assignments.
  destruct (generate_stop_last torch self
              (encode_dialog_prompt (formatter self) messages tool_prompt_format)
              (resolve_max_gen_len self max_gen_len)
              temperature top_p logprobs s) as [Hlast Htext].
  fold r in Hlast, Htext. fold results in Hlast, Htext.
  destruct (final_stop_reason_last results) as (H1 & H2 & H3 & H4 & H5).
  { intros i tr Hi Hm. apply (Hlast i tr Hi).
    apply Hmarkers. rewrite Forall_lookup in Htext.
    by rewrite <- (Htext i tr Hi). }
  repeat split; try done.
  intros pr Hpr. rewrite chat_completion_run in Hpr.
  fold r in Hpr. fold results in Hpr. cbn [outcome] in Hpr.
  destruct (outcome r); [|done]. by injection Hpr as <-.
Qed.

End ChatClaims.

(** ** Greedy decoding *)

Section GreedyFacts.

Context {rng cache Message ToolPromptFormat CompletionMessage : Type}.
Variable self : Llama cache Message ToolPromptFormat CompletionMessage.
Variables (torch1 torch2 : Torch rng).
Variables (temperature top_p1 top_p2 : Q) (logprobs : bool).
Hypothesis greedy : (temperature <= 0)%Q.
Hypothesis same_loss : cross_entropy torch1 = cross_entropy torch2.

Lemma place_token_same_loss input_text_mask cur_pos fr logits k :
  place_token torch1 self input_text_mask logprobs cur_pos fr logits k
  = place_token torch2 self input_text_mask logprobs cur_pos fr logits k.
Proof using same_loss. unfold place_token. by rewrite same_loss. Qed.

Lemma decode_step_greedy input_text_mask cur_pos fr g1 g2 c :
  agree g1 g2
    (decode_step torch1 self input_text_mask temperature top_p1 logprobs
       cur_pos fr (Sys g1 c))
    (decode_step torch2 self input_text_mask temperature top_p2 logprobs
       cur_pos fr (Sys g2 c)).
Proof using greedy same_loss.
  unfold agree, decode_step, bind, call_forward. cbn [model_state rng_state].
  destruct (forward _ _ _ c) as [logits c'].
  cbn [outcome events final].
  destruct (last logits) as [row|];
    cbn [require ret raise outcome events final]; [|by eauto].
  rewrite !next_token_of_greedy by done.
  destruct (Tensor.argmax row) as [k|]; cbn [outcome events final];
    [|by eauto].
  rewrite place_token_same_loss.
  destruct (place_token torch2 _ _ _ _ _ _ _) as [fr' result].
  cbn [emit ret outcome events final]. by eauto.
Qed.

Lemma decode_loop_greedy input_text_mask positions fr g1 g2 c :
  agree g1 g2
    (decode_loop torch1 self input_text_mask temperature top_p1 logprobs
       positions fr (Sys g1 c))
    (decode_loop torch2 self input_text_mask temperature top_p2 logprobs
       positions fr (Sys g2 c)).
Proof using greedy same_loss.
  revert fr c. induction positions as [|cur_pos rest IH]; intros fr c.
  - unfold agree. cbn. eauto.
  - cbn [decode_loop]. unfold bind.
    destruct (decode_step_greedy input_text_mask cur_pos fr g1 g2 c)
      as (Ho & He & c' & Hf1 & Hf2).
    rewrite <- Ho, <- He, Hf1, Hf2.
    destruct (outcome (decode_step torch1 _ _ _ _ _ _ _ _)) as [fr'|e];
      [|unfold agree; cbn [outcome events final]; by eauto].
    destruct (eos_reached fr').
    + unfold agree. cbn [ret outcome events final]. eauto.
    + destruct (IH fr' c') as (Ho' & He' & c'' & Hf1' & Hf2').
      unfold agree. cbn [outcome events final].
      rewrite Ho', He', Hf1', Hf2'. eauto.
Qed.

Lemma generate_greedy model_input max_gen_len g1 g2 c :
  agree g1 g2
    (generate torch1 self model_input max_gen_len temperature top_p1
       logprobs (Sys g1 c))
    (generate torch2 self model_input max_gen_len temperature top_p2
       logprobs (Sys g2 c)).
Proof using greedy same_loss.
  unfold generate, bind.
  destruct (assert _ (Sys g1 c)) as [[[]|e] evs s1] eqn:Ha;
    unfold assert in *;
    destruct (1 <=? max_batch_size (params (model self)));
    cbn in Ha; try done; injection Ha as <- <-;
    cbn [ret raise outcome events final]; [|unfold agree; cbn; by eauto].
  destruct (max_seq_len _ <=? _);
    [unfold agree; cbn; by eauto|].
  cbn [app].
  set (total := min _ _). set (mask := text_mask _ _).
  destruct (length (ModelInput_tokens model_input) =? total).
  - unfold call_forward. cbn [model_state rng_state].
    destruct (forward _ _ _ c) as [logits c'].
    cbn [ret outcome events final].
    rewrite same_loss.
    match goal with |- context [decode_loop torch1 _ _ _ _ _ ?ps ?fr _] =>
      destruct (decode_loop_greedy mask ps fr g1 g2 c')
        as (Ho & He & c'' & Hf1 & Hf2) end.
    rewrite Ho, He, Hf1, Hf2.
    destruct (outcome (decode_loop torch2 _ _ _ _ _ _ _ _));
      unfold agree; cbn [ret outcome events final]; eauto.
  - cbn [ret outcome events final].
    match goal with |- context [decode_loop torch1 _ _ _ _ _ ?ps ?fr _] =>
      destruct (decode_loop_greedy mask ps fr g1 g2 c)
        as (Ho & He & c'' & Hf1 & Hf2) end.
    rewrite Ho, He, Hf1, Hf2.
    destruct (outcome (decode_loop torch2 _ _ _ _ _ _ _ _));
      unfold agree; cbn [ret outcome events final]; eauto.
Qed.

End GreedyFacts.

Lemma argmax_trace_no_sampler (prev : option (list (list Q)))
    (evs : list event) :
  argmax_trace prev evs -> sampler_calls evs = [].
Proof.
  revert prev. induction evs as [|e evs IH]; intros prev H; [done|].
  destruct e; simpl in H.
  - by apply IH in H.
  - by apply IH in H.
  - done.
  - destruct H as [_ H]. by apply IH in H.
Qed.

Section GreedyTrace.

Context {rng cache Message ToolPromptFormat CompletionMessage : Type}.
Variable torch : Torch rng.
Variable self : Llama cache Message ToolPromptFormat CompletionMessage.
Variables (temperature top_p : Q) (logprobs : bool).
Hypothesis greedy : (temperature <= 0)%Q.

Lemma step_argmax_trace input_text_mask cur_pos fr (s : sys rng cache)
    (prev : option (list (list Q))) (rest : list event) :
  (input_text_mask !!! cur_pos : bool) = false ->
  (forall prev', argmax_trace prev' rest) ->
  argmax_trace prev
    (events (decode_step torch self input_text_mask temperature top_p
               logprobs cur_pos fr s) ++ rest).
Proof using greedy.
  intros Hm Hrest.
  destruct (decode_step_spec torch self input_text_mask temperature top_p
              logprobs cur_pos fr s)
    as [logits c Hf Hl|logits c row e evs s' Hf Hl Hn
       |logits c row k evs s' Hf Hl Hn placed];
    cbn [events app argmax_trace].
  - apply Hrest.
  - rewrite next_token_of_greedy in Hn by done.
    injection Hn as _ <- _. apply Hrest.
  - rewrite next_token_of_greedy in Hn by done.
    injection Hn as Hk <- _. cbn [app argmax_trace].
    split; [|apply Hrest].
    exists logits, row, k. repeat split; try done.
    + by destruct (Tensor.argmax row) as [k'|]; [injection Hk as ->|].
    + by apply place_token_free.
Qed.

Lemma loop_argmax_trace input_text_mask positions fr (s : sys rng cache)
    (r : run rng cache frame) :
  loop_spec torch self input_text_mask temperature top_p logprobs
    positions fr s r ->
  Forall (fun pos => (input_text_mask !!! pos : bool) = false) positions ->
  forall prev, argmax_trace prev (events r).
Proof using greedy.
  induction 1 as [fr s|cur_pos rest fr s e evs s' Hs
                 |cur_pos rest fr s fr' evs s' Hs He
                 |cur_pos rest fr s fr' evs s' r Hs He _ IH];
    cbn [events]; intros Hmask prev.
  - done.
  - apply Forall_cons in Hmask as [Hcur _].
    pose proof (step_argmax_trace input_text_mask cur_pos fr s prev []
                  Hcur (fun _ => I)) as H.
    by rewrite Hs, app_nil_r in H.
  - apply Forall_cons in Hmask as [Hcur _].
    pose proof (step_argmax_trace input_text_mask cur_pos fr s prev []
                  Hcur (fun _ => I)) as H.
    by rewrite Hs, app_nil_r in H.
  - apply Forall_cons in Hmask as [Hcur Hrest].
    pose proof (step_argmax_trace input_text_mask cur_pos fr s prev
                  (events r) Hcur (IH Hrest)) as H.
    by rewrite Hs in H.
Qed.

Lemma generate_argmax_trace model_input max_gen_len (s : sys rng cache) :
  argmax_trace None
    (events (generate torch self model_input max_gen_len temperature top_p
               logprobs s)).
Proof using greedy.
  destruct (generate_cases torch self model_input max_gen_len temperature
              top_p logprobs s) as [Hb|Hb Hl|logits c Hb Hl Hg Hf|r Hb Hl Hg Hr];
    cbn [events argmax_trace]; try done.
  eapply loop_argmax_trace; [exact Hr | apply positions_unmasked].
Qed.

(** A greedy call completes whenever the model answers every window
    with logits whose last row is not empty. *)
Lemma decode_loop_greedy_completes input_text_mask positions fr
    (s : sys rng cache) :
  (forall w p c, exists row,
      last (forward (model self) w p c).1 = Some row /\ row <> []) ->
  exists fr',
    outcome (decode_loop torch self input_text_mask temperature top_p
               logprobs positions fr s) = Ok fr'.
Proof using greedy.
  intros Hmodel. revert fr s.
  induction positions as [|cur_pos rest IH]; intros fr s; [by eexists|].
  cbn [decode_loop]. unfold bind.
  destruct (decode_step_spec torch self input_text_mask temperature top_p
              logprobs cur_pos fr s)
    as [logits c Hf Hl|logits c row e evs s' Hf Hl Hn
       |logits c row k evs s' Hf Hl Hn placed];
    cbn [outcome events final].
  - destruct (Hmodel (Tensor.slice (tokens fr) (prev_pos fr) cur_pos)
                (prev_pos fr) (model_state s)) as (row & Hrow & _).
    rewrite Hf in Hrow. simpl in Hrow. congruence.
  - destruct (Hmodel (Tensor.slice (tokens fr) (prev_pos fr) cur_pos)
                (prev_pos fr) (model_state s)) as (row' & Hrow & Hne).
    rewrite Hf in Hrow. simpl in Hrow.
    rewrite Hl in Hrow. injection Hrow as <-.
    rewrite next_token_of_greedy in Hn by done.
    destruct row; [done|]. discriminate Hn.
  - destruct (eos_reached placed.1); [by eexists|].
    destruct (IH placed.1 s') as [fr' Hfr']. exists fr'.
    cbn [outcome]. exact Hfr'.
Qed.

Lemma generate_greedy_completes model_input max_gen_len (s : sys rng cache) :
  1 <= max_batch_size (params (model self)) ->
  length (ModelInput_tokens model_input) < max_seq_len (params (model self)) ->
  (forall w p c, exists row,
      last (forward (model self) w p c).1 = Some row /\ row <> []) ->
  exists fr,
    outcome (generate torch self model_input max_gen_len temperature top_p
               logprobs s) = Ok (Some fr).
Proof using greedy.
  intros Hb Hl Hmodel.
  destruct (decide (max_gen_len = 0)) as [Hg|Hg].
  - destruct (forward (model self) (ModelInput_tokens model_input) 0
                (model_state s)) as [logits c] eqn:Hf.
    rewrite (generate_full_prompt torch self model_input max_gen_len
               temperature top_p logprobs s logits c) by done.
    by eexists.
  - rewrite generate_loop by (done || lia). cbn [outcome].
    match goal with |- context [decode_loop _ _ ?m _ _ _ ?ps ?fr s] =>
      destruct (decode_loop_greedy_completes m ps fr s Hmodel) as [fr' ->]
    end.
    by eexists.
Qed.

End GreedyTrace.

(** C8. With [temperature <= 0] the engine is deterministic: from the
    same prompt and the same model state, two runs do the same things in
    the same order and end alike (so they yield the same tokens),
    whatever the state of the random generator, the value of [top_p] and
    the sampling functions of torch are; the random generator is left
    untouched, [sample_top_p] is never called, and every yielded token is
    the arg-max of the logits of the last window position. *)
Theorem greedy_deterministic
    {rng cache Message ToolPromptFormat CompletionMessage : Type}
    (self : Llama cache Message ToolPromptFormat CompletionMessage)
    (torch1 torch2 : Torch rng)
    (model_input : ModelInput) (max_gen_len : nat)
    (temperature top_p1 top_p2 : Q) (logprobs : bool)
    (g1 g2 : rng) (c : cache) :
  (temperature <= 0)%Q ->
  cross_entropy torch1 = cross_entropy torch2 ->
  let r1 := generate torch1 self model_input max_gen_len temperature top_p1
              logprobs (Sys g1 c) in
  let r2 := generate torch2 self model_input max_gen_len temperature top_p2
              logprobs (Sys g2 c) in
  events r1 = events r2 /\
  outcome r1 = outcome r2 /\
  yields (events r1) = yields (events r2) /\
  model_state (final r1) = model_state (final r2) /\
  rng_state (final r1) = g1 /\
  rng_state (final r2) = g2 /\
  sampler_calls (events r1) = [] /\
  argmax_trace None (events r1).
Proof.
  intros HT Hce r1 r2.
  destruct (generate_greedy self torch1 torch2 temperature top_p1 top_p2
              logprobs HT Hce model_input max_gen_len g1 g2 c)
    as (Ho & He & c' & Hf1 & Hf2).
  fold r1 in Ho, He, Hf1. fold r2 in Ho, He, Hf2.
  pose proof (generate_argmax_trace torch1 self temperature top_p1 logprobs
                HT model_input max_gen_len (Sys g1 c)) as Htr.
  fold r1 in Htr.
  rewrite <- He, Hf1, Hf2. repeat split; try done.
  by eapply argmax_trace_no_sampler.
Qed.



(** ** The claims on concrete runs *)

(** C1 as amended, on the row (1/2, 1/4, 1/8, 1/8) given out of order
    and [p = 3/4]: no sum is rounded, and the last entry, with the mass
    7/8 before it, is the one excluded. *)
Lemma sample_top_p_float32_witness :
  let probs := [F32.of_Z 1 (-2); F32.of_Z 1 (-1); F32.of_Z 1 (-3);
                F32.of_Z 1 (-3)] in
  Forall F32.nonneg probs /\
  Permutation (F32.sort_desc probs).2 (seq 0 4) /\
  F32.top_p_mask F32.narrow (F32.sort_desc probs).1 (F32.of_Z 3 (-2)) !! 3
  = Some true.
Proof.
  intros probs.
  assert (Hnn : Forall F32.nonneg probs) by (by repeat constructor).
  pose proof (sample_top_p_float32 F32.narrow (fun _ (g : unit) => (None, g))
                probs (F32.of_Z 3 (-2)) tt Hnn eq_refl)
    as (_ & Hperm & _ & _ & _ & Hrule & _).
  split; [exact Hnn|]. split; [exact Hperm|].
  apply (Hrule 3 (F32.of_Z 1 0) (F32.of_Z 1 (-3)));
    reflexivity.
Defined.

(** C1 as stated fails in the arithmetic of the source, whether the
    running totals are accumulated in float32 or without rounding.
    Both rows are float32 distributions in descending order and both
    thresholds lie in (0, 1].  In the first row the mass before entry 2
    is [p] itself and does not exceed it, so that the entry is to be
    kept; the running total [1 - 2^-25] is stored as 1 and the entry is
    excluded.  In the second row the mass before entry 1 is
    [0.375 + 2^-25] and exceeds [p = 0.375], so that the entry is to be
    excluded; the running total [0.75 + 2^-25] is stored as 0.75, the
    entry is kept with weight 1/2 and a draw returns it. *)
Lemma nucleus_boundary_moves_with_rounding :
  let probs := [F32.of_Z 1 (-1); F32.of_Z (2 ^ 23 - 1) (-24);
                F32.of_Z 1 (-25); F32.of_Z 1 (-25)] in
  let p := F32.of_Z (2 ^ 24 - 1) (-24) in
  let probs' := [F32.of_Z (3 * 2 ^ 22 + 1) (-25); F32.of_Z 3 (-3);
                 F32.of_Z (2 ^ 23 - 1) (-25)] in
  let p' := F32.of_Z 3 (-3) in
  (Forall (fun x => F32.number x = true) (p :: probs) /\
   (Tensor.sum (F32.to_Q <$> probs) == 1)%Q /\
   F32.sort_desc probs = (probs, [0; 1; 2; 3]) /\
   (0 < F32.to_Q p)%Q /\ (F32.to_Q p <= 1)%Q /\
   (Tensor.sum (take 2 (F32.to_Q <$> probs)) == F32.to_Q p)%Q /\
   top_p_mask (F32.to_Q <$> probs) (F32.to_Q p) !! 2 = Some false /\
   F32.top_p_mask F32.narrow probs p = [false; false; true; true] /\
   F32.top_p_mask F32.wide probs p = [false; false; true; true]) /\
  (Forall (fun x => F32.number x = true) (p' :: probs') /\
   (Tensor.sum (F32.to_Q <$> probs') == 1)%Q /\
   F32.sort_desc probs' = (probs', [0; 1; 2]) /\
   (0 < F32.to_Q p')%Q /\ (F32.to_Q p' <= 1)%Q /\
   (F32.to_Q p' < Tensor.sum (take 1 (F32.to_Q <$> probs')))%Q /\
   top_p_mask (F32.to_Q <$> probs') (F32.to_Q p') !! 1 = Some true /\
   F32.top_p_mask F32.narrow probs' p' = [false; false; true] /\
   F32.top_p_mask F32.wide probs' p' = [false; false; true] /\
   F32.top_p_weights F32.narrow probs' p' !! 1 = Some (F32.of_Z 1 (-1)) /\
   F32.top_p_weights F32.wide probs' p' !! 1 = Some (F32.of_Z 1 (-1)) /\
   F32.sample_top_p F32.narrow (fun _ (g : unit) => (Some 1, g)) probs' p' tt
   = (Some 1, tt) /\
   F32.sample_top_p F32.wide (fun _ (g : unit) => (Some 1, g)) probs' p' tt
   = (Some 1, tt)).
Proof.
  vm_compute. repeat split; repeat constructor; try discriminate.
Qed.



(** C4 as amended, with a context limit of 2 and the two-token prompt. *)
Lemma prompt_too_long_ends_quietly_witness :
  outcome (text_completion Toy.torch (Toy.llama 2 1) "x" (6#10) (9#10) None
             true Toy.s0)
  = Ok (Prediction.mk EmptyString (Some []) (Some [])).
Proof.
  refine (proj2 (proj2 (proj2 (proj2 (proj2 (proj2
    (prompt_too_long_ends_quietly Toy.torch (Toy.llama 2 1)
       {| ModelInput_tokens := [0; 1]%Z |} "x" 5 None (6#10) (9#10) true
       Toy.s0 _ _ _))))))); simpl; lia.
Defined.

(** C4 as stated fails: with a context limit of 2 the two-token prompt
    is too long, yet the call does not raise; its consumer sees what the
    consumer of a generation without budget (limit 10, [max_gen_len = 0])
    sees, and [text_completion] returns a prediction. *)
Lemma too_long_prompt_not_signalled :
  let prompt := {| ModelInput_tokens := [0; 1]%Z |} in
  let rejected :=
    drive (generate Toy.torch (Toy.llama 2 1) prompt 5 (6#10) (9#10) false)
          Toy.s0 in
  let empty :=
    drive (generate Toy.torch (Toy.llama 10 1) prompt 0 (6#10) (9#10) false)
          Toy.s0 in
  max_seq_len (params (model (Toy.llama 2 1)))
    <= length (ModelInput_tokens prompt) /\
  outcome rejected = Ok [] /\
  forward_calls (events empty) = [([0; 1]%Z, 0)] /\
  outcome empty = Ok [] /\
  outcome rejected = outcome empty /\
  outcome (text_completion Toy.torch (Toy.llama 2 1) "x" (6#10) (9#10) None
             false Toy.s0)
  = Ok (Prediction.mk EmptyString None None).
Proof. vm_compute. repeat split; lia. Qed.

(** C5 on the code: prompt [0; 1], no budget, log-probabilities asked
    for.  The one forward pass is made and the log-probabilities of the
    prompt are computed into the frame, but nothing is yielded: the
    consumer of the generator receives no result, hence no
    log-probability. *)
Lemma full_prompt_logprobs_dropped :
  let gen := generate Toy.torch (Toy.llama 10 1)
               {| ModelInput_tokens := [0; 1]%Z |} 0 (6#10) (9#10) true in
  total_len (Toy.llama 10 1) 2 0 = 2 /\
  forward_calls (events (gen Toy.s0)) = [([0; 1]%Z, 0)] /\
  (exists fr, outcome (gen Toy.s0) = Ok (Some fr) /\
              token_logprobs fr = [-(1); -(1)]%Q) /\
  yields (events (gen Toy.s0)) = [] /\
  outcome (drive gen Toy.s0) = Ok [].
Proof.
  vm_compute. repeat split. eexists. split; reflexivity.
Qed.

Lemma toy_markers_stop (tk : Z) :
  is_marker (decode Toy.tok [tk]) -> tk ∈ stop_tokens Toy.tok.
Proof.
  simpl. destruct (Z.eqb_spec tk 3) as [->|_]; [intros _; repeat constructor|].
  destruct (Z.eqb_spec tk 4) as [->|_]; [intros _; repeat constructor|].
  by intros [|].
Qed.

(** C7 on a chat whose second token is the end-of-turn marker. *)
Lemma chat_stop_reason_witness :
  exists pr,
    outcome (chat_completion Toy.torch (Toy.llama 10 1) [] 0 (9#10) None
               false tt Toy.s0) = Ok pr /\
    Prediction.generation pr = ([2; 3]%Z, end_of_turn).
Proof.
  eexists. split; [vm_compute; reflexivity|].
  destruct (chat_stop_reason Toy.torch (Toy.llama 10 1) [] 0 (9#10) None
              false tt Toy.s0 toy_markers_stop)
    as (Heot & _ & _ & _ & _ & Hpr).
  rewrite (Hpr _ ltac:(vm_compute; reflexivity)).
  rewrite Heot; [reflexivity|]. vm_compute. repeat constructor.
Defined.

(** C8 on two greedy runs that differ in the draw, the state of the
    random generator and [top_p]. *)
Lemma greedy_deterministic_witness :
  TokenResult.token <$>
    yields (events (generate Toy.torch (Toy.llama 10 1)
                      {| ModelInput_tokens := [0; 1]%Z |} 5 0 (9#10) false
                      (Sys 0 0)))
  = TokenResult.token <$>
    yields (events (generate (Toy.torch_const 4) (Toy.llama 10 1)
                      {| ModelInput_tokens := [0; 1]%Z |} 5 0 (1#2) false
                      (Sys 7 0))).
Proof.
  destruct (greedy_deterministic (Toy.llama 10 1) Toy.torch (Toy.torch_const 4)
              {| ModelInput_tokens := [0; 1]%Z |} 5 0 (9#10) (1#2) false
              0 7 0 ltac:(discriminate) eq_refl)
    as (_ & _ & Hy & _).
  by rewrite Hy.
Defined.



(** * Further properties of the sampler *)

Section SamplerEdges.

Import Tensor.
#[local] Open Scope Q_scope.


Lemma sum_zeros (n : nat) : sum (replicate n 0) == 0.
Proof.
  induction n as [|n IH]; [reflexivity|].
  change (replicate (S n) 0) with (0 :: replicate n 0).
  rewrite sum_cons, IH. reflexivity.
Qed.

Lemma masked_fill_all (t : list Q) (v : Q) :
  masked_fill t (replicate (length t) true) v = replicate (length t) v.
Proof. unfold masked_fill. induction t; simpl; congruence. Qed.

Lemma sum_Forall2 (l k : list Q) : Forall2 Qeq l k -> sum l == sum k.
Proof.
  induction 1 as [|x y l k Hxy _ IH]; [reflexivity|].
  by rewrite !sum_cons, Hxy, IH.
Qed.


(** X4. A negative threshold excludes every entry: nothing is kept and
    the mass the renormalisation divides by is zero. *)
Theorem top_p_negative_excludes_all (probs_sort : list Q) (p : Q) :
  Forall (Qle 0) probs_sort -> p < 0 ->
  top_p_mask probs_sort p = replicate (length probs_sort) true /\
  masked_fill probs_sort (top_p_mask probs_sort p) 0
    = replicate (length probs_sort) 0 /\
  sum (masked_fill probs_sort (top_p_mask probs_sort p) 0) == 0.
Proof.
  intros Hnn Hp.
  assert (Hmask : top_p_mask probs_sort p
                  = replicate (length probs_sort) true).
  { apply list_eq_same_length with (length probs_sort);
      [apply length_replicate | apply top_p_mask_length|].
    intros i b b' Hi Hb Hb'.
    rewrite top_p_mask_lookup in Hb by done. injection Hb as <-.
    apply lookup_replicate in Hb' as [-> _]. apply Qgtb_true.
    pose proof (sum_nonneg (take i probs_sort) (Forall_take _ _ _ Hnn)). lra. }
  rewrite Hmask, masked_fill_all. repeat split. apply sum_zeros.
Qed.

Lemma masked_fill_zeros (rest : list Q) (mask : list bool) :
  Forall (fun r => r == 0) rest -> length mask = length rest ->
  Forall2 Qeq (masked_fill rest mask 0) (replicate (length rest) 0).
Proof.
  intros Hrest. revert mask.
  induction Hrest as [|r rest Hr _ IH]; intros [|m mask] Hlen;
    try discriminate; [constructor|].
  unfold masked_fill.
  change (zip_with ?f (r :: rest) (m :: mask))
    with (f r m :: zip_with f rest mask).
  change (replicate (length (r :: rest)) 0)
    with (0 :: replicate (length rest) 0).
  constructor; [by destruct m | apply IH; simpl in Hlen; lia].
Qed.

(** X5. A distribution with a single non-zero entry gives that entry
    all the weight, whatever non-negative threshold is asked for. *)
Theorem top_p_single_entry (probs_sort rest : list Q) (x p : Q) :
  probs_sort = x :: rest -> 0 < x -> Forall (fun r => r == 0) rest ->
  0 <= p ->
  Forall2 Qeq (top_p_weights probs_sort p) (1 :: replicate (length rest) 0).
Proof.
  intros -> Hx Hrest Hp.
  pose proof (top_p_mask_length (x :: rest) p) as Hlen.
  pose proof (top_p_mask_lookup (x :: rest) p 0 ltac:(simpl; lia)) as H0.
  unfold top_p_weights.
  destruct (top_p_mask (x :: rest) p) as [|b mask]; [done|].
  injection H0 as ->. change (sum (take 0 (x :: rest))) with 0.
  replace (Qgtb 0 p) with false by (symmetry; by apply Qgtb_false).
  assert (Hk : Forall2 Qeq (masked_fill rest mask 0)
                 (replicate (length rest) 0))
    by (apply masked_fill_zeros; [done | simpl in Hlen; lia]).
  unfold masked_fill at 1 2.
  change (zip_with ?f (x :: rest) (false :: mask))
    with (x :: zip_with f rest mask).
  fold (masked_fill rest mask 0).
  assert (HK : sum (x :: masked_fill rest mask 0) == x).
  { rewrite sum_cons, (sum_Forall2 _ _ Hk), sum_zeros. ring. }
  unfold div. rewrite fmap_cons. constructor.
  - rewrite HK. field. intros E. rewrite E in Hx. by apply Qlt_irrefl in Hx.
  - clear HK. revert Hk.
    generalize (sum (x :: masked_fill rest mask 0)).
    generalize (masked_fill rest mask 0) (length rest).
    intros l n K Hl. revert n Hl.
    induction l as [|y l IH]; intros [|n] Hl; inversion Hl; subst;
      [constructor|].
    rewrite fmap_cons. constructor; [|by apply IH].
    match goal with H : y == 0 |- _ => rewrite H end.
    unfold Qdiv. apply Qmult_0_l.
Qed.

End SamplerEdges.

(** * Further properties of the decode loop *)

Section LoopExtras.

Context {rng cache Message ToolPromptFormat CompletionMessage : Type}.
Variable torch : Torch rng.
Variable self : Llama cache Message ToolPromptFormat CompletionMessage.
Variables (input_text_mask : list bool) (temperature top_p : Q)
          (logprobs : bool).

#[local] Abbreviation loop_run :=
  (loop_spec torch self input_text_mask temperature top_p logprobs).

(** A loop that completes over at least one position yields a result. *)
Lemma loop_ok_yields cur_pos rest fr (s : sys rng cache) r fr' :
  loop_run (cur_pos :: rest) fr s r -> outcome r = Ok fr' ->
  0 < length (yields (events r)).
Proof.
  inversion 1 as [|? ? ? ? e evs s' Hs|? ? ? ? fr1 evs s' Hs He
                 |? ? ? ? fr1 evs s' r' Hs He Hr]; subst;
    cbn [outcome events]; intros Ho; [done| |].
  - apply decode_step_ok in Hs as (logits & k & _ & -> & _). simpl. lia.
  - apply decode_step_ok in Hs as (logits & k & _ & Hy & _).
    rewrite yields_app, Hy, length_app. simpl. lia.
Qed.

(** One forward pass per result, and one more when the loop raises. *)
Lemma loop_forward_count positions fr (s : sys rng cache) r :
  loop_run positions fr s r ->
  length (forward_calls (events r))
  = match outcome r with
    | Ok _ => length (yields (events r))
    | Raise _ => S (length (yields (events r)))
    end.
Proof.
  induction 1 as [fr s|cur_pos rest fr s e evs s' Hs
                 |cur_pos rest fr s fr' evs s' Hs He
                 |cur_pos rest fr s fr' evs s' r Hs He _ IH];
    cbn [outcome events].
  - done.
  - by apply decode_step_raise in Hs as [-> ->].
  - by apply decode_step_ok in Hs as (logits & k & _ & -> & ->).
  - apply decode_step_ok in Hs as (logits & k & _ & Hy & Hc).
    rewrite yields_app, forward_calls_app, !length_app, Hy, Hc, IH.
    simpl. by destruct (outcome r).
Qed.

(** Every forward pass of a loop over [seq a n] ends before [a + n]. *)
Lemma loop_forward_bound positions fr (s : sys rng cache) r :
  loop_run positions fr s r ->
  forall a n, positions = seq a n -> prev_pos fr <= a ->
  Forall (fun c => c.2 + length c.1 < a + n) (forward_calls (events r)).
Proof.
  assert (Hstep : forall (fr0 : frame) a n,
            prev_pos fr0 <= a ->
            Forall (fun c : list Z * nat => c.2 + length c.1 < a + S n)
              [(Tensor.slice (tokens fr0) (prev_pos fr0) a, prev_pos fr0)]).
  { intros fr0 a n Hp. repeat constructor. simpl.
    unfold Tensor.slice. rewrite length_take. lia. }
  induction 1 as [fr s|cur_pos rest fr s e evs s' Hs
                 |cur_pos rest fr s fr' evs s' Hs He
                 |cur_pos rest fr s fr' evs s' r Hs He _ IH];
    cbn [outcome events]; intros a n Hseq Hprev.
  - constructor.
  - destruct n as [|n]; [done|]. injection Hseq as -> _.
    apply decode_step_raise in Hs as [_ ->]. by apply Hstep.
  - destruct n as [|n]; [done|]. injection Hseq as -> _.
    apply decode_step_ok in Hs as (logits & k & _ & _ & ->). by apply Hstep.
  - destruct n as [|n]; [done|]. injection Hseq as -> Hrest.
    apply decode_step_ok in Hs as (logits & k & Hfr & _ & Hc).
    rewrite forward_calls_app, Hc. apply Forall_app. split.
    + by apply Hstep.
    + eapply Forall_impl; [apply (IH (S a) n Hrest)|].
      * rewrite Hfr, place_token_prev_pos. lia.
      * intros c Hc'. simpl in *. lia.
Qed.

(** The windows of a completed loop over [seq a n]: first the tokens
    from [prev_pos] to [a], then each yielded token but the last, alone,
    at the position it was stored at. *)
Lemma loop_forward_windows positions fr (s : sys rng cache) r :
  loop_run positions fr s r ->
  forall a n fr', positions = seq a n -> 0 < n ->
  a + n <= length (tokens fr) -> outcome r = Ok fr' ->
  forward_calls (events r)
  = (Tensor.slice (tokens fr) (prev_pos fr) a, prev_pos fr)
    :: imap (fun i tr => ([TokenResult.token tr], a + i))
            (take (length (yields (events r)) - 1) (yields (events r))).
Proof.
  induction 1 as [fr s|cur_pos rest fr s e evs s' Hs
                 |cur_pos rest fr s fr' evs s' Hs He
                 |cur_pos rest fr s fr' evs s' r Hs He Hr IH];
    cbn [outcome events]; intros a n fr2 Hseq Hn Hlen Ho.
  - destruct n; [lia | done].
  - done.
  - destruct n as [|n]; [done|]. injection Hseq as -> _.
    by apply decode_step_ok in Hs as (logits & k & _ & -> & ->).
  - destruct n as [|n]; [done|]. injection Hseq as -> Hrest.
    apply decode_step_ok in Hs as (logits & k & Hfr & Hy & Hc).
    rewrite forward_calls_app, yields_app, Hc, Hy, length_app.
    cbn [length app Nat.add].
    replace (S (length (yields (events r))) - 1)
      with (length (yields (events r))) by lia.
    f_equal.
    destruct n as [|n].
    + subst rest. inversion Hr; subst. done.
    + pose proof (loop_ok_yields _ _ _ _ _ _
                    (eq_rect _ (fun ps => loop_run ps fr' s' r) Hr _ Hrest)
                    Ho) as Hpos.
      rewrite (IH (S a) (S n) fr2 Hrest ltac:(lia)
                 ltac:(rewrite Hfr, place_token_tokens, length_insert; lia) Ho).
      destruct (length (yields (events r))) as [|m] eqn:Hm; [lia|].
      replace (S m - 1) with m by lia. cbn [take].
      rewrite imap_cons. f_equal.
      * rewrite Hfr, place_token_prev_pos, place_token_tokens.
        rewrite Nat.add_0_r. f_equal. unfold Tensor.slice.
        replace (S a - a) with 1 by lia.
        rewrite drop_insert_ge, Nat.sub_diag by lia.
        destruct (drop a (tokens fr)) as [|z l] eqn:Hd; [|done].
        apply (f_equal length) in Hd. rewrite length_drop in Hd.
        simpl in Hd. lia.
      * apply imap_ext. intros i tr _. simpl. f_equal. lia.
Qed.

End LoopExtras.

(** * Further properties of [generate] *)

Section GenerateExtras.

Context {rng cache Message ToolPromptFormat CompletionMessage : Type}.
Variable torch : Torch rng.
Variable self : Llama cache Message ToolPromptFormat CompletionMessage.
Variables (model_input : ModelInput) (max_gen_len : nat)
          (temperature top_p : Q) (logprobs : bool).

#[local] Abbreviation gen_run :=
  (generate torch self model_input max_gen_len temperature top_p logprobs).
#[local] Abbreviation gen_cases :=
  (generate_cases torch self model_input max_gen_len temperature top_p
     logprobs).

(** X6. The model is asked once per result: a call makes as many forward
    passes as it yields results, or one more (the pass of a step that
    raises, or the single pass of a call without budget); a call with a
    budget that completes makes exactly one pass per result. *)
Theorem generate_forward_per_yield (s : sys rng cache) :
  let r := gen_run s in
  length (yields (events r)) <= length (forward_calls (events r))
    <= S (length (yields (events r))) /\
  (0 < max_gen_len -> forall fr, outcome r = Ok (Some fr) ->
     length (forward_calls (events r)) = length (yields (events r))).
Proof.
  intros r. subst r.
  destruct (gen_cases s) as [Hb|Hb Hl|logits c Hb Hl Hg Hf|r Hb Hl Hg Hr];
    cbn [outcome events]; try (split; [simpl; lia | intros; simpl; (done || lia)]).
  pose proof (loop_forward_count _ _ _ _ _ _ _ _ _ _ Hr) as Hc.
  split.
  - rewrite Hc. destruct (outcome r); lia.
  - intros _ fr Ho. rewrite Hc. by destruct (outcome r).
Qed.

(** X7. In a completed call with a budget every token is handed to the
    model exactly once and in order: the first window is the whole
    prompt at offset 0, and each later window is the single token yielded
    by the step before, at the offset where it was stored. *)
Theorem generate_forward_windows (s : sys rng cache) (fr : frame) :
  0 < max_gen_len ->
  outcome (gen_run s) = Ok (Some fr) ->
  let t := ModelInput_tokens model_input in
  let ys := yields (events (gen_run s)) in
  forward_calls (events (gen_run s))
  = (t, 0) :: imap (fun i tr => ([TokenResult.token tr], length t + i))
                   (take (length ys - 1) ys).
Proof.
  intros Hg0.
  destruct (gen_cases s) as [Hb|Hb Hl|logits c Hb Hl Hg Hf|r Hb Hl Hg Hr];
    cbn [outcome events]; intros Ho; cbv zeta; try done; try lia.
  destruct (outcome r) as [fr'|e] eqn:Hor; [|done]. injection Ho as ->.
  pose proof (initial_tokens_length self (ModelInput_tokens model_input)
                max_gen_len Hl) as Hlen.
  rewrite (loop_forward_windows _ _ _ _ _ _ _ _ _ _ Hr _ _ fr eq_refl)
    by (done || (cbn [initial_frame tokens]; unfold total_len in *; lia)).
  cbn [initial_frame tokens prev_pos]. do 2 f_equal.
  unfold Tensor.slice. rewrite initial_tokens_eq, drop_0, Nat.sub_0_r.
  apply take_app_length.
Qed.

(** X8. No forward pass reaches the context limit: the window of every
    pass ends before position [max_seq_len]. *)
Theorem forward_within_context (s : sys rng cache) :
  Forall (fun c => c.2 + length c.1 < max_seq_len (params (model self)))
         (forward_calls (events (gen_run s))).
Proof.
  destruct (gen_cases s) as [Hb|Hb Hl|logits c Hb Hl Hg Hf|r Hb Hl Hg Hr];
    cbn [events]; try (by repeat constructor).
  eapply Forall_impl;
    [apply (loop_forward_bound _ _ _ _ _ _ _ _ _ _ Hr _ _ eq_refl);
     cbn [initial_frame prev_pos]; lia|].
  intros c Hc. cbv beta in Hc. unfold total_len in Hc. lia.
Qed.

(** X9. Nothing is yielded after a stop token: a yielded token that
    belongs to the stop set is the last result of the call.  And every
    result carries the decoding of its own single token. *)
Theorem no_yield_after_stop (s : sys rng cache) :
  let ys := yields (events (gen_run s)) in
  (forall i tr, ys !! i = Some tr ->
     TokenResult.token tr ∈ stop_tokens (tokenizer self) ->
     S i = length ys) /\
  (forall tr, tr ∈ ys ->
     TokenResult.text tr = decode (tokenizer self) [TokenResult.token tr]).
Proof.
  intros ys. subst ys.
  destruct (generate_stop_last torch self model_input max_gen_len temperature
              top_p logprobs s) as [H1 H2].
  split; [exact H1|]. by apply Forall_forall.
Qed.

End GenerateExtras.

(** * Further properties: diagnostics, sampling, adapters *)

Section LogprobExtras.

Context {rng cache Message ToolPromptFormat CompletionMessage : Type}.
Variable torch : Torch rng.
Variable self : Llama cache Message ToolPromptFormat CompletionMessage.
Variables (input_text_mask : list bool) (temperature top_p : Q).

(** [F.cross_entropy(..., reduction="none")] answers one loss per
    target. *)
Hypothesis loss_per_target : forall logits target pad,
  length (cross_entropy torch logits target pad) = length target.

Lemma place_token_logprobs cur_pos fr logits k :
  prev_pos fr <= cur_pos -> cur_pos < length (tokens fr) ->
  length (token_logprobs fr) = length (tokens fr) ->
  let placed :=
    place_token torch self input_text_mask true cur_pos fr logits k in
  length (token_logprobs placed.1) = length (tokens fr) /\
  exists l, TokenResult.logprobs placed.2 = Some l /\
            length l = cur_pos - prev_pos fr.
Proof using loss_per_target.
  intros Hprev Hcur Hlen placed. subst placed. unfold place_token.
  cbn [fst snd token_logprobs TokenResult.logprobs].
  set (tok := if (input_text_mask !!! cur_pos : bool) then _ else _).
  set (target := Tensor.slice (<[cur_pos := tok]> (tokens fr)) _ _).
  assert (Htarget : length target = cur_pos - prev_pos fr).
  { unfold target, Tensor.slice.
    rewrite length_take, length_drop, length_insert. lia. }
  set (src := Qopp <$> cross_entropy torch logits target _).
  assert (Hsrc : length src = cur_pos - prev_pos fr)
    by (unfold src; by rewrite length_fmap, loss_per_target).
  assert (Hnew : length (Tensor.set_slice (token_logprobs fr)
                           (prev_pos fr + 1) (cur_pos + 1) src)
                 = length (tokens fr)).
  { unfold Tensor.set_slice.
    rewrite !length_app, !length_take, length_drop. lia. }
  split; [exact Hnew|].
  eexists. split; [reflexivity|].
  unfold Tensor.slice at 1. rewrite length_take, length_drop, Hnew. lia.
Qed.

(** Each result of a loop over [seq a n] that records diagnostics
    carries the log-probabilities of the positions its step covered. *)
Lemma loop_logprobs positions fr (s : sys rng cache) r :
  loop_spec torch self input_text_mask temperature top_p true
    positions fr s r ->
  forall a n, positions = seq a n -> prev_pos fr <= a ->
  a + n <= length (tokens fr) ->
  length (token_logprobs fr) = length (tokens fr) ->
  forall i tr, yields (events r) !! i = Some tr ->
  exists l, TokenResult.logprobs tr = Some l /\
            length l = match i with 0 => a - prev_pos fr | S _ => 1 end.
Proof using loss_per_target.
  induction 1 as [fr s|cur_pos rest fr s e evs s' Hs
                 |cur_pos rest fr s fr' evs s' Hs He
                 |cur_pos rest fr s fr' evs s' r Hs He _ IH];
    cbn [events]; intros a n Hseq Hprev Hlen Hlp i tr Hi.
  - done.
  - apply decode_step_raise in Hs as [Hy _]. by rewrite Hy in Hi.
  - destruct n as [|n]; [done|]. injection Hseq as -> _.
    apply decode_step_ok in Hs as (logits & k & _ & Hy & _).
    rewrite Hy in Hi. destruct i as [|i]; [|done]. injection Hi as <-.
    apply place_token_logprobs; (done || lia).
  - destruct n as [|n]; [done|]. injection Hseq as -> Hrest.
    apply decode_step_ok in Hs as (logits & k & Hfr & Hy & _).
    destruct (place_token_logprobs a fr logits k Hprev ltac:(lia) Hlp)
      as [Hlp' Hfirst].
    rewrite yields_app, Hy in Hi. destruct i as [|i].
    + injection Hi as <-. exact Hfirst.
    + change (yields (events r) !! i = Some tr) in Hi.
      destruct (IH (S a) n Hrest
                  ltac:(rewrite Hfr, place_token_prev_pos; lia)
                  ltac:(rewrite Hfr, place_token_tokens, length_insert; lia)
                  ltac:(by rewrite Hfr, Hlp', place_token_tokens, length_insert)
                  i tr Hi) as (l & Hl & Hlen').
      exists l. split; [exact Hl|].
      rewrite Hfr, place_token_prev_pos in Hlen'.
      destruct i; lia.
Qed.

End LogprobExtras.

Section DiagnosticsExtras.

Context {rng cache Message ToolPromptFormat CompletionMessage : Type}.
Variable torch : Torch rng.
Variable self : Llama cache Message ToolPromptFormat CompletionMessage.
Variables (model_input : ModelInput) (max_gen_len : nat)
          (temperature top_p : Q).

Lemma loop_no_logprobs input_text_mask positions fr (s : sys rng cache) r :
  loop_spec torch self input_text_mask temperature top_p false
    positions fr s r ->
  Forall (fun tr => TokenResult.logprobs tr = None) (yields (events r)).
Proof.
  induction 1 as [fr s|cur_pos rest fr s e evs s' Hs
                 |cur_pos rest fr s fr' evs s' Hs He
                 |cur_pos rest fr s fr' evs s' r Hs He _ IH];
    cbn [events].
  - constructor.
  - apply decode_step_raise in Hs as [-> _]. constructor.
  - apply decode_step_ok in Hs as (logits & k & _ & -> & _).
    by repeat constructor.
  - apply decode_step_ok in Hs as (logits & k & _ & Hy & _).
    rewrite yields_app, Hy. apply Forall_app. split; [|exact IH].
    by repeat constructor.
Qed.

(** X10. Diagnostics follow the steps.  Without [logprobs] no result
    carries log-probabilities.  With [logprobs], and a cross-entropy that
    answers one loss per target, every result carries the
    log-probabilities of the positions its step finalised: as many as
    the prompt is long for the first result, one for every later
    result. *)
Theorem logprobs_per_step (s : sys rng cache) :
  (forall logits target pad,
      length (cross_entropy torch logits target pad) = length target) ->
  (forall tr,
      tr ∈ yields (events (generate torch self model_input max_gen_len
                             temperature top_p false s)) ->
      TokenResult.logprobs tr = None) /\
  (forall i tr,
      yields (events (generate torch self model_input max_gen_len
                        temperature top_p true s)) !! i = Some tr ->
      exists l, TokenResult.logprobs tr = Some l /\
                length l = match i with
                           | 0 => length (ModelInput_tokens model_input)
                           | S _ => 1
                           end).
Proof.
  intros Hloss. split.
  - apply Forall_forall.
    destruct (generate_cases torch self model_input max_gen_len temperature
                top_p false s) as [Hb|Hb Hl|logits c Hb Hl Hg Hf|r Hb Hl Hg Hr];
      cbn [events]; try (by constructor).
    by eapply loop_no_logprobs.
  - destruct (generate_cases torch self model_input max_gen_len temperature
                top_p true s) as [Hb|Hb Hl|logits c Hb Hl Hg Hf|r Hb Hl Hg Hr];
      cbn [events]; try done.
    intros i tr Hi.
    pose proof (initial_tokens_length self (ModelInput_tokens model_input)
                  max_gen_len Hl) as Hlen.
    destruct (loop_logprobs torch self _ temperature top_p Hloss _ _ _ _ Hr
                _ _ eq_refl) with (i := i) (tr := tr) as (l & Hl1 & Hl2);
      cbn [initial_frame tokens token_logprobs prev_pos];
      try (rewrite ?length_replicate; unfold total_len in *; lia); [done|].
    exists l. split; [done|].
    destruct i; cbn [initial_frame prev_pos] in Hl2; lia.
Qed.

End DiagnosticsExtras.

Section SamplingExtras.

Context {rng cache Message ToolPromptFormat CompletionMessage : Type}.
Variable torch : Torch rng.
Variable self : Llama cache Message ToolPromptFormat CompletionMessage.
Variables (temperature top_p : Q) (logprobs : bool).
Hypothesis sampling : (0 < temperature)%Q.

(** With a positive temperature a step that got logits calls the sampler
    once, with the caller's [top_p]. *)
Lemma step_sampler_calls input_text_mask cur_pos fr (s : sys rng cache)
    o evs s' :
  decode_step torch self input_text_mask temperature top_p logprobs
    cur_pos fr s = Run o evs s' ->
  Forall (fun c => c.2 = top_p) (sampler_calls evs) /\
  length (sampler_calls evs) <= 1 /\
  (forall fr', o = Ok fr' -> length (sampler_calls evs) = 1).
Proof using sampling.
  intros Hs.
  pose proof (decode_step_spec torch self input_text_mask temperature top_p
                logprobs cur_pos fr s) as H.
  rewrite Hs in H.
  assert (Hcall : forall row (s1 : sys rng cache) o1 evs1 s2,
            next_token_of torch temperature top_p row s1 = Run o1 evs1 s2 ->
            exists probs, evs1 = [SampleTopP probs top_p]).
  { intros row s1 o1 evs1 s2 Hn.
    rewrite next_token_of_sampled in Hn by done.
    unfold call_sample_top_p in Hn.
    destruct (sample_top_p _ _ _ _) as [nt g]. injection Hn as _ <- _.
    by eexists. }
  inversion H as [logits c Hf Hl|logits c row e evs0 s0 Hf Hl Hn
                 |logits c row k evs0 s0 Hf Hl Hn placed]; subst.
  - split; [constructor | split; [simpl; lia | done]].
  - destruct (Hcall _ _ _ _ _ Hn) as [probs ->].
    split; [by repeat constructor | split; [simpl; lia | done]].
  - destruct (Hcall _ _ _ _ _ Hn) as [probs ->].
    split; [by repeat constructor | split; [simpl; lia | done]].
Qed.

Lemma loop_sampler_calls input_text_mask positions fr (s : sys rng cache) r :
  loop_spec torch self input_text_mask temperature top_p logprobs
    positions fr s r ->
  Forall (fun c => c.2 = top_p) (sampler_calls (events r)) /\
  length (yields (events r)) <= length (sampler_calls (events r))
    <= S (length (yields (events r))) /\
  (forall fr', outcome r = Ok fr' ->
     length (sampler_calls (events r)) = length (yields (events r))).
Proof using sampling.
  induction 1 as [fr s|cur_pos rest fr s e evs s' Hs
                 |cur_pos rest fr s fr' evs s' Hs He
                 |cur_pos rest fr s fr' evs s' r Hs He _ IH];
    cbn [outcome events].
  - split; [constructor | split; [simpl; lia | done]].
  - destruct (step_sampler_calls _ _ _ _ _ _ _ Hs) as (Hp & Hle & _).
    apply decode_step_raise in Hs as [-> _].
    split; [done | split; [simpl in *; lia | done]].
  - destruct (step_sampler_calls _ _ _ _ _ _ _ Hs) as (Hp & _ & Hone).
    specialize (Hone _ eq_refl).
    apply decode_step_ok in Hs as (logits & k & _ & -> & _).
    split; [done | split; [simpl; lia | simpl; intros; lia]].
  - destruct (step_sampler_calls _ _ _ _ _ _ _ Hs) as (Hp & _ & Hone).
    specialize (Hone _ eq_refl).
    apply decode_step_ok in Hs as (logits & k & _ & Hy & _).
    destruct IH as (IHp & IHle & IHok).
    rewrite sampler_calls_app, yields_app, Hy, !length_app, Hone.
    split; [by apply Forall_app|]. split; [simpl; lia|].
    intros fr2 Ho. rewrite (IHok _ Ho). simpl. lia.
Qed.

End SamplingExtras.

(** X11. With a positive temperature every yielded token is drawn by one
    call of [sample_top_p], which is given the caller's [top_p]: the
    sampler is called once per result, or once more when the last draw
    was refused, and exactly once per result when the call completes. *)
Theorem sampled_tokens_use_top_p
    {rng cache Message ToolPromptFormat CompletionMessage : Type}
    (torch : Torch rng)
    (self : Llama cache Message ToolPromptFormat CompletionMessage)
    (model_input : ModelInput) (max_gen_len : nat)
    (temperature top_p : Q) (logprobs : bool) (s : sys rng cache) :
  (0 < temperature)%Q ->
  let r := generate torch self model_input max_gen_len temperature top_p
             logprobs s in
  Forall (fun c => c.2 = top_p) (sampler_calls (events r)) /\
  length (yields (events r)) <= length (sampler_calls (events r))
    <= S (length (yields (events r))) /\
  (forall fr, outcome r = Ok (Some fr) ->
     length (sampler_calls (events r)) = length (yields (events r))).
Proof.
  intros HT r. subst r.
  destruct (generate_cases torch self model_input max_gen_len temperature
              top_p logprobs s) as [Hb|Hb Hl|logits c Hb Hl Hg Hf|r Hb Hl Hg Hr];
    cbn [outcome events];
    try (split; [constructor | split; [simpl; lia | done]]).
  destruct (loop_sampler_calls torch self temperature top_p logprobs HT
              _ _ _ _ _ Hr) as (Hp & Hle & Hok).
  split; [done|]. split; [lia|].
  intros fr Ho. destruct (outcome r) as [fr'|]; [|done]. by eapply Hok.
Qed.

Section AdapterExtras.

Context {rng cache Message ToolPromptFormat CompletionMessage : Type}.
Variable torch : Torch rng.
Variable self : Llama cache Message ToolPromptFormat CompletionMessage.



(** X12. The adapters add no failure of their own and hide none: what
    [text_completion] and [chat_completion] did and left behind is what
    their call of [generate] did and left behind, and each of them
    raises exactly the exception [generate] raised, returning a
    prediction exactly when [generate] ended normally. *)
Theorem adapters_propagate_failure (prompt : string)
    (messages : list Message) (tool_prompt_format : ToolPromptFormat)
    (temperature top_p : Q) (max_gen_len : option nat) (logprobs : bool)
    (s : sys rng cache) :
  let text_gen :=
    generate torch self
      {| ModelInput_tokens := encode (tokenizer self) prompt true false |}
      (resolve_max_gen_len self max_gen_len) temperature top_p logprobs s in
  let chat_gen :=
    generate torch self
      (encode_dialog_prompt (formatter self) messages tool_prompt_format)
      (resolve_max_gen_len self max_gen_len) temperature top_p logprobs s in
  let text := text_completion torch self prompt temperature top_p max_gen_len
                logprobs s in
  let chat := chat_completion torch self messages temperature top_p
                max_gen_len logprobs tool_prompt_format s in
  (events text = events text_gen /\ final text = final text_gen /\
   (forall e, outcome text = Raise e <-> outcome text_gen = Raise e) /\
   ((exists pr, outcome text = Ok pr) <-> (exists o, outcome text_gen = Ok o)))
  /\
  (events chat = events chat_gen /\ final chat = final chat_gen /\
   (forall e, outcome chat = Raise e <-> outcome chat_gen = Raise e) /\
   ((exists pr, outcome chat = Ok pr) <-> (exists o, outcome chat_gen = Ok o))).
Proof.
  intros text_gen chat_gen text chat. subst text chat.
  rewrite text_completion_run, chat_completion_run.
  fold text_gen chat_gen. cbn [outcome events final].
  split.
  - destruct (outcome text_gen) as [o|e0].
    + do 2 (split; [done|]).
      split; [intros e; split; intros ?; discriminate|].
      split; intros _; eauto.
    + do 2 (split; [done|]).
      split; [intros e; split; intros [= ->]; reflexivity|].
      split; intros [x Hx]; discriminate.
  - destruct (outcome chat_gen) as [o|e0].
    + do 2 (split; [done|]).
      split; [intros e; split; intros ?; discriminate|].
      split; intros _; eauto.
    + do 2 (split; [done|]).
      split; [intros e; split; intros [= ->]; reflexivity|].
      split; intros [x Hx]; discriminate.
Qed.


End AdapterExtras.

(** X14. Without any assumption on the tokenizer, the stop reason of a
    chat completion is decided by the last marker among the emitted
    texts: end-of-turn or end-of-message as that marker says, and
    out-of-tokens, assigned once, when no text is a marker. *)
Theorem stop_reason_last_marker (before after : list TokenResult.t)
    (tr : TokenResult.t) :
  Forall (fun r => ~ is_marker (TokenResult.text r)) after ->
  (TokenResult.text tr = "<|eot_id|>" ->
   (final_stop_reason (before ++ tr :: after)).1 = end_of_turn) /\
  (TokenResult.text tr = "<|eom_id|>" ->
   (final_stop_reason (before ++ tr :: after)).1 = end_of_message) /\
  final_stop_reason after = (out_of_tokens, 1).
Proof.
  intros Hafter.
  assert (Hfold : forall st,
            foldl track_stop_reason st (before ++ tr :: after)
            = track_stop_reason (foldl track_stop_reason st before) tr).
  { intros st. rewrite foldl_app. cbn [foldl].
    by rewrite (foldl_track_no_marker _ _ Hafter). }
  unfold final_stop_reason. rewrite Hfold.
  rewrite (foldl_track_no_marker _ _ Hafter).
  split; [|split; [|done]].
  - intros E. unfold track_stop_reason. by rewrite E.
  - intros E. unfold track_stop_reason. by rewrite E.
Qed.

Section DiagnosticsNeutral.

Context {rng cache Message ToolPromptFormat CompletionMessage : Type}.
Variable torch : Torch rng.
Variable self : Llama cache Message ToolPromptFormat CompletionMessage.
Variables (input_text_mask : list bool) (temperature top_p : Q).

(** Frames that differ in their log-probabilities at most. *)
#[local] Abbreviation alike fr1 fr2 :=
  (tokens fr1 = tokens fr2 /\ prev_pos fr1 = prev_pos fr2 /\
   eos_reached fr1 = eos_reached fr2).

(** Runs that did the same but for the recorded diagnostics. *)
#[local] Abbreviation same_generation r1 r2 :=
  (final r1 = final r2 /\
   forward_calls (events r1) = forward_calls (events r2) /\
   sampler_calls (events r1) = sampler_calls (events r2) /\
   TokenResult.token <$> yields (events r1)
     = TokenResult.token <$> yields (events r2) /\
   TokenResult.text <$> yields (events r1)
     = TokenResult.text <$> yields (events r2)).

Lemma place_token_diagnostics cur_pos fr1 fr2 logits k :
  alike fr1 fr2 ->
  let p1 := place_token torch self input_text_mask true cur_pos fr1 logits k in
  let p2 := place_token torch self input_text_mask false cur_pos fr2 logits k in
  alike p1.1 p2.1 /\
  TokenResult.token p1.2 = TokenResult.token p2.2 /\
  TokenResult.text p1.2 = TokenResult.text p2.2.
Proof.
  intros (Ht & Hp & He). unfold place_token.
  cbn [fst snd tokens prev_pos eos_reached TokenResult.token TokenResult.text].
  by rewrite Ht, He.
Qed.

Lemma decode_step_diagnostics cur_pos fr1 fr2 (s : sys rng cache) :
  alike fr1 fr2 ->
  let r1 := decode_step torch self input_text_mask temperature top_p true
              cur_pos fr1 s in
  let r2 := decode_step torch self input_text_mask temperature top_p false
              cur_pos fr2 s in
  same_generation r1 r2 /\
  match outcome r1, outcome r2 with
  | Ok a, Ok b => alike a b
  | Raise e1, Raise e2 => e1 = e2
  | _, _ => False
  end.
Proof.
  intros Hal. pose proof Hal as (Ht & Hp & He).
  unfold decode_step, bind, call_forward. rewrite Ht, Hp.
  destruct (forward _ _ _ _) as [logits c].
  cbn [outcome events final].
  destruct (last logits) as [row|];
    cbn [require ret raise outcome events final]; [|done].
  destruct (next_token_of torch temperature top_p row _) as [[k|e] evs s1];
    cbn [outcome events final]; [|done].
  destruct (place_token_diagnostics cur_pos fr1 fr2 logits k Hal)
    as (Hal' & Htok & Htext).
  destruct (place_token torch self input_text_mask true cur_pos fr1 logits k)
    as [a ra].
  destruct (place_token torch self input_text_mask false cur_pos fr2 logits k)
    as [b rb].
  cbn [emit ret outcome events final fst snd] in *.
  rewrite !app_nil_r, !app_nil_l.
  rewrite !forward_calls_app, !sampler_calls_app, !yields_app, !fmap_app.
  change (yields [Yield ra]) with [ra]. change (yields [Yield rb]) with [rb].
  change (forward_calls [Yield ra]) with (@nil (list Z * nat)).
  change (forward_calls [Yield rb]) with (@nil (list Z * nat)).
  change (sampler_calls [Yield ra]) with (@nil (list Q * Q)).
  change (sampler_calls [Yield rb]) with (@nil (list Q * Q)).
  cbn [fmap list_fmap]. by rewrite Htok, Htext.
Qed.

Lemma decode_loop_diagnostics positions fr1 fr2 (s : sys rng cache) :
  alike fr1 fr2 ->
  let r1 := decode_loop torch self input_text_mask temperature top_p true
              positions fr1 s in
  let r2 := decode_loop torch self input_text_mask temperature top_p false
              positions fr2 s in
  same_generation r1 r2 /\
  match outcome r1, outcome r2 with
  | Ok a, Ok b => alike a b
  | Raise e1, Raise e2 => e1 = e2
  | _, _ => False
  end.
Proof.
  revert fr1 fr2 s.
  induction positions as [|cur_pos rest IH]; intros fr1 fr2 s Hal; [done|].
  cbn [decode_loop]. unfold bind.
  destruct (decode_step_diagnostics cur_pos fr1 fr2 s Hal)
    as ((Hf & Hfc & Hsc & Htok & Htext) & Ho).
  destruct (decode_step torch self input_text_mask temperature top_p true
              cur_pos fr1 s) as [[a|e1] evs1 s1];
    destruct (decode_step torch self input_text_mask temperature top_p false
                cur_pos fr2 s) as [[b|e2] evs2 s2];
    cbn [outcome events final] in *; try done.
  subst s2. destruct Ho as (Ht' & Hp' & He'). rewrite <- He'.
  destruct (eos_reached a) eqn:Ea.
  - cbn [ret outcome events final]. rewrite !app_nil_r.
    repeat split; (assumption || congruence).
  - destruct (IH a b s1 ltac:(repeat split; congruence))
      as ((Hf2 & Hfc2 & Hsc2 & Htok2 & Htext2) & Ho2).
    cbn [outcome events final].
    rewrite !forward_calls_app, !sampler_calls_app, !yields_app, !fmap_app.
    rewrite Hf2, Hfc, Hfc2, Hsc, Hsc2, Htok, Htok2, Htext, Htext2.
    repeat split; (assumption || done).
Qed.

End DiagnosticsNeutral.

(** X15. Asking for diagnostics does not change what is generated: with
    and without [logprobs], from the same state, a call makes the same
    forward passes and the same draws, yields the same tokens with the
    same texts, leaves the model and the random generator in the same
    state, ends or raises alike and leaves the same token buffer. *)
Theorem logprobs_do_not_change_generation
    {rng cache Message ToolPromptFormat CompletionMessage : Type}
    (torch : Torch rng)
    (self : Llama cache Message ToolPromptFormat CompletionMessage)
    (model_input : ModelInput) (max_gen_len : nat)
    (temperature top_p : Q) (s : sys rng cache) :
  let r1 := generate torch self model_input max_gen_len temperature top_p
              true s in
  let r2 := generate torch self model_input max_gen_len temperature top_p
              false s in
  final r1 = final r2 /\
  forward_calls (events r1) = forward_calls (events r2) /\
  sampler_calls (events r1) = sampler_calls (events r2) /\
  TokenResult.token <$> yields (events r1)
    = TokenResult.token <$> yields (events r2) /\
  TokenResult.text <$> yields (events r1)
    = TokenResult.text <$> yields (events r2) /\
  (forall e, outcome r1 = Raise e <-> outcome r2 = Raise e) /\
  (outcome r1 = Ok None <-> outcome r2 = Ok None) /\
  (forall fr1, outcome r1 = Ok (Some fr1) ->
     exists fr2, outcome r2 = Ok (Some fr2) /\ tokens fr1 = tokens fr2).
Proof.
  intros r1 r2. subst r1 r2.
  destruct (max_batch_size (params (model self))) as [|b] eqn:Hb.
  { rewrite !generate_assert by done. cbn. repeat split; try done.
    all: by intros. }
  destruct (decide (max_seq_len (params (model self))
                    <= length (ModelInput_tokens model_input))) as [Hl|Hl].
  { rewrite !generate_too_long by (done || lia). cbn.
    repeat split; try done. all: by intros. }
  destruct (decide (max_gen_len = 0)) as [Hg|Hg].
  { destruct (forward (model self) (ModelInput_tokens model_input) 0
                (model_state s)) as [logits c] eqn:Hf.
    rewrite !(generate_full_prompt _ _ _ _ _ _ _ s logits c) by (done || lia).
    cbn. repeat split; try done.
    intros fr1 [= <-]. by eexists. }
  rewrite !generate_loop by lia. cbn [outcome events final].
  match goal with
  | |- context [decode_loop torch self ?m _ _ true ?ps ?f1 s] =>
      match goal with
      | |- context [decode_loop torch self _ _ _ false _ ?f2 s] =>
          destruct (decode_loop_diagnostics torch self m temperature top_p
                      ps f1 f2 s) as ((Hf & Hfc & Hsc & Htok & Htext) & Ho);
            [done|]
      end
  end.
  do 5 (split; [done|]).
  destruct (outcome (decode_loop _ _ _ _ _ true _ _ _)) as [a|e1];
    destruct (outcome (decode_loop _ _ _ _ _ false _ _ _)) as [a2|e2];
    try done.
  - split; [done|]. split; [done|].
    intros fr1 [= <-]. exists a2. by destruct Ho as (-> & _).
  - subst e2. split; [done|]. split; [done|]. done.
Qed.

Section TokenRange.

Context {rng cache Message ToolPromptFormat CompletionMessage : Type}.
Variable torch : Torch rng.
Variable self : Llama cache Message ToolPromptFormat CompletionMessage.

Lemma loop_tokens_chosen input_text_mask temperature top_p logprobs
    positions fr (s : sys rng cache) r :
  loop_spec torch self input_text_mask temperature top_p logprobs
    positions fr s r ->
  Forall (fun pos => (input_text_mask !!! pos : bool) = false) positions ->
  Forall (fun tr => (0 <= TokenResult.token tr)%Z) (yields (events r)).
Proof.
  induction 1 as [fr s|cur_pos rest fr s e evs s' Hs
                 |cur_pos rest fr s fr' evs s' Hs He
                 |cur_pos rest fr s fr' evs s' r Hs He _ IH];
    cbn [events]; intros Hmask.
  - constructor.
  - apply decode_step_raise in Hs as [-> _]. constructor.
  - apply Forall_cons in Hmask as [Hcur _].
    apply decode_step_ok in Hs as (logits & k & _ & -> & _).
    repeat constructor. rewrite place_token_free by done. lia.
  - apply Forall_cons in Hmask as [Hcur Hrest].
    apply decode_step_ok in Hs as (logits & k & _ & Hy & _).
    rewrite yields_app, Hy. apply Forall_app. split; [|by apply IH].
    repeat constructor. rewrite place_token_free by done. lia.
Qed.

(** X16. Every yielded token is an index chosen by the arg-max or the
    sampler, never a token forced by the prompt mask: it is not
    negative, so with a negative pad id (as an unused id) the pad id is
    never generated. *)
Theorem generated_tokens_not_pad (model_input : ModelInput)
    (max_gen_len : nat) (temperature top_p : Q) (logprobs : bool)
    (s : sys rng cache) :
  let ys := yields (events (generate torch self model_input max_gen_len
                              temperature top_p logprobs s)) in
  Forall (fun tr => (0 <= TokenResult.token tr)%Z) ys /\
  ((pad_id (tokenizer self) < 0)%Z ->
   Forall (fun tr => TokenResult.token tr <> pad_id (tokenizer self)) ys).
Proof.
  intros ys.
  assert (H : Forall (fun tr => (0 <= TokenResult.token tr)%Z) ys).
  { subst ys.
    destruct (generate_cases torch self model_input max_gen_len temperature
                top_p logprobs s) as [Hb|Hb Hl|logits c Hb Hl Hg Hf|r Hb Hl Hg Hr];
      cbn [events]; try (by constructor).
    eapply loop_tokens_chosen; [exact Hr | apply positions_unmasked]. }
  split; [exact H|]. intros Hpad.
  eapply Forall_impl; [exact H|]. intros tr Htr. simpl in *. lia.
Qed.

End TokenRange.

(** ** The further properties on concrete runs *)


(** X2 on the row (0.375 + 2^-25, 0.375, 0.25 - 2^-25) with
    [p = 0.375]: the draw that lands on entry 1. *)
Lemma sample_top_p_support_witness :
  let probs := [F32.of_Z (3 * 2 ^ 22 + 1) (-25); F32.of_Z 3 (-3);
                F32.of_Z (2 ^ 23 - 1) (-25)] in
  exists k x,
    F32.sample_top_p F32.narrow (fun _ (g : unit) => (Some 1, g)) probs
      (F32.of_Z 3 (-3)) tt = (Some k, tt) /\
    probs !! k = Some x /\ F32.gtb x F32.zero = true.
Proof.
  intros probs.
  destruct (sample_top_p_support F32.narrow (fun _ (g : unit) => (Some 1, g))
              probs (F32.of_Z 3 (-3)) tt tt 1 (F32.of_Z 1 (-1)))
    as (k & x & H1 & H2 & H3 & _).
  - by repeat constructor.
  - reflexivity.
  - reflexivity.
  - reflexivity.
  - exists k, x. by repeat split.
Defined.

(** X3 on the same row with the threshold zero. *)
Lemma top_entry_never_excluded_witness :
  let probs := [F32.of_Z (3 * 2 ^ 22 + 1) (-25); F32.of_Z 3 (-3);
                F32.of_Z (2 ^ 23 - 1) (-25)] in
  F32.top_p_mask F32.wide probs F32.zero !! 0 = Some false.
Proof.
  intros probs.
  exact (proj1 (proj1 (top_entry_never_excluded F32.wide probs
                         (F32.of_Z (3 * 2 ^ 22 + 1) (-25)) F32.zero
                         eq_refl eq_refl)
                  eq_refl)).
Defined.

(** X4 with a threshold of minus one half. *)
Lemma top_p_negative_excludes_all_witness :
  top_p_mask [1#2; 1#4; 1#8; 1#8] (-1#2) = [true; true; true; true].
Proof.
  apply (proj1 (top_p_negative_excludes_all [1#2; 1#4; 1#8; 1#8] (-1#2)
                  ltac:(repeat constructor; discriminate) eq_refl)).
Defined.

(** X5 on the distribution (1, 0, 0) with [p = 3/10]. *)
Lemma top_p_single_entry_witness :
  Forall2 Qeq (top_p_weights [1#1; 0#1; 0#1] (3#10)) [1#1; 0#1; 0#1].
Proof.
  apply (top_p_single_entry [1#1; 0#1; 0#1] [0#1; 0#1] (1#1) (3#10) eq_refl eq_refl);
    [repeat constructor | discriminate].
Defined.

(** X6 and X7 on the run that stops early. *)
Lemma generate_forward_per_yield_witness :
  length (forward_calls (events (generate Toy.torch (Toy.llama 10 1)
            {| ModelInput_tokens := [0; 1]%Z |} 5 (6#10) (9#10) false Toy.s0)))
  = 2.
Proof.
  destruct (generate_forward_per_yield Toy.torch (Toy.llama 10 1)
              {| ModelInput_tokens := [0; 1]%Z |} 5 (6#10) (9#10) false Toy.s0)
    as [_ H].
  rewrite (H ltac:(lia) _ ltac:(vm_compute; reflexivity)). reflexivity.
Defined.

Lemma generate_forward_windows_witness :
  forward_calls (events (generate Toy.torch (Toy.llama 10 1)
    {| ModelInput_tokens := [0; 1]%Z |} 5 (6#10) (9#10) false Toy.s0))
  = [([0; 1]%Z, 0); ([2]%Z, 2)].
Proof.
  rewrite (generate_forward_windows Toy.torch (Toy.llama 10 1)
             {| ModelInput_tokens := [0; 1]%Z |} 5 (6#10) (9#10) false Toy.s0
             _ ltac:(lia) ltac:(vm_compute; reflexivity)).
  reflexivity.
Defined.

(** X9 on the run that stops early: its second result is a stop token
    and the last one. *)
Lemma no_yield_after_stop_witness :
  length (yields (events (generate Toy.torch (Toy.llama 10 1)
            {| ModelInput_tokens := [0; 1]%Z |} 5 (6#10) (9#10) false Toy.s0)))
  = 2.
Proof.
  symmetry.
  refine (proj1 (no_yield_after_stop Toy.torch (Toy.llama 10 1)
                   {| ModelInput_tokens := [0; 1]%Z |} 5 (6#10) (9#10) false
                   Toy.s0) 1 _ _ _);
    [vm_compute; reflexivity | vm_compute; repeat constructor].
Defined.

(** X10 on a run with diagnostics: the first result carries two
    log-probabilities, one per prompt token. *)
Lemma logprobs_per_step_witness :
  exists tr l,
    yields (events (generate Toy.torch (Toy.llama 10 1)
              {| ModelInput_tokens := [0; 1]%Z |} 5 (6#10) (9#10) true Toy.s0))
      !! 0 = Some tr /\
    TokenResult.logprobs tr = Some l /\ length l = 2.
Proof.
  pose proof (proj2 (logprobs_per_step Toy.torch (Toy.llama 10 1)
                       {| ModelInput_tokens := [0; 1]%Z |} 5 (6#10) (9#10)
                       Toy.s0
                       (fun _ target _ => length_fmap _ target)) 0) as H.
  edestruct H as (l & H1 & H2); [vm_compute; reflexivity|].
  eexists _, l. split; [vm_compute; reflexivity|].
  split; [exact H1 | exact H2].
Defined.

(** X11 on the same sampled run. *)
Lemma sampled_tokens_use_top_p_witness :
  Forall (fun c => c.2 = (9#10)%Q)
    (sampler_calls (events (generate Toy.torch (Toy.llama 10 1)
       {| ModelInput_tokens := [0; 1]%Z |} 5 (6#10) (9#10) false Toy.s0))).
Proof.
  exact (proj1 (sampled_tokens_use_top_p Toy.torch (Toy.llama 10 1)
                  {| ModelInput_tokens := [0; 1]%Z |} 5 (6#10) (9#10) false
                  Toy.s0 eq_refl)).
Defined.


(** X14: an end-of-message text followed by an end-of-turn text and an
    ordinary one. *)
Lemma stop_reason_last_marker_witness :
  (final_stop_reason
     [TokenResult.mk 4 "<|eom_id|>" None; TokenResult.mk 3 "<|eot_id|>" None;
      TokenResult.mk 1 "w" None]).1 = end_of_turn.
Proof.
  refine (proj1 (stop_reason_last_marker
                   [TokenResult.mk 4 "<|eom_id|>" None]
                   [TokenResult.mk 1 "w" None]
                   (TokenResult.mk 3 "<|eot_id|>" None) _) eq_refl).
  repeat constructor. by intros [|].
Defined.

(** X16 on the same run, whose tokenizer has the pad id -1. *)
Lemma generated_tokens_not_pad_witness :
  Forall (fun tr => TokenResult.token tr <> (-1)%Z)
    (yields (events (generate Toy.torch (Toy.llama 10 1)
       {| ModelInput_tokens := [0; 1]%Z |} 5 (6#10) (9#10) false Toy.s0))).
Proof.
  exact (proj2 (generated_tokens_not_pad Toy.torch (Toy.llama 10 1)
                  {| ModelInput_tokens := [0; 1]%Z |} 5 (6#10) (9#10) false
                  Toy.s0) eq_refl).
Defined.

(** * The call with Python integers *)

Section CallFacts.

Context {rng cache Message ToolPromptFormat CompletionMessage : Type}.
Variable torch : Torch rng.
Variable self : Llama cache Message ToolPromptFormat CompletionMessage.
Variables (model_input : ModelInput) (max_gen_len : Z)
          (temperature : Q) (logprobs : bool).

#[local] Abbreviation call := (fun top_p : Q =>
  Llama_generate torch self model_input max_gen_len temperature top_p
    logprobs).

Lemma bind_torch_check_true {A} (b : bool) (k : M rng cache A)
    (s : sys rng cache) :
  b = true -> (_ <- torch_check b;; k) s = k s.
Proof. intros ->. unfold bind, torch_check, ret. cbn. by destruct (k s). Qed.

Lemma bind_torch_check_false {A} (b : bool) (k : M rng cache A)
    (s : sys rng cache) :
  b = false -> (_ <- torch_check b;; k) s = Run (Raise RuntimeError) [] s.
Proof. by intros ->. Qed.

(** The ways a call can go: the assertion fails, the prompt is turned
    away, the set-up of the buffer raises, the buffer is empty, or the
    budget is a natural number and the call is that of [generate].
    Which of them it is does not depend on [top_p]. *)
Lemma Llama_generate_cases (s : sys rng cache) :
  let t := ModelInput_tokens model_input in
  let msl := max_seq_len (params (model self)) in
  (max_batch_size (params (model self)) = 0 /\
   forall top_p, call top_p s = Run (Raise AssertionError) [] s) \/
  (1 <= max_batch_size (params (model self)) /\ msl <= length t /\
   forall top_p, call top_p s = Run (Ok None) [Cprint (length t) msl] s) \/
  (1 <= max_batch_size (params (model self)) /\ length t < msl /\
   ((max_gen_len < 0)%Z \/ int64 (pad_id (tokenizer self)) = false \/
    forallb int64 t = false) /\
   forall top_p, call top_p s = Run (Raise RuntimeError) [] s) \/
  (1 <= max_batch_size (params (model self)) /\ length t < msl /\
   max_gen_len = (-1)%Z /\ length t = 1 /\
   forall top_p,
     call top_p s = Run (Ok (Some (Frame [] [] 0 false))) [] s) \/
  (1 <= max_batch_size (params (model self)) /\ length t < msl /\
   (0 <= max_gen_len)%Z /\ int64 (pad_id (tokenizer self)) = true /\
   forallb int64 t = true /\
   forall top_p,
     call top_p s = generate torch self model_input (Z.to_nat max_gen_len)
                      temperature top_p logprobs s).
Proof.
  intros t msl.
  set (total_len :=
         Z.min (max_gen_len + Z.of_nat (length t)) (Z.of_nat msl)).
  destruct (max_batch_size (params (model self))) as [|b] eqn:Hb.
  { left. split; [done|]. intros top_p.
    unfold Llama_generate, bind, assert. by rewrite Hb. }
  right.
  destruct (decide (msl <= length t)) as [Hl|Hl].
  { left. split; [lia|]. split; [done|]. intros top_p.
    unfold Llama_generate, bind, assert. rewrite Hb.
    cbn [Nat.leb ret outcome events final app]. fold t msl.
    by apply Nat.leb_le in Hl as ->. }
  right.
  assert (Hl' : (msl <=? length t) = false) by (apply Nat.leb_gt; lia).
  assert (Hgo : forall top_p, call top_p s =
    (_ <- torch_check ((0 <=? total_len)%Z
                       && int64 (pad_id (tokenizer self)));;
     _ <- torch_check (forallb int64 t);;
     _ <- torch_check ((Z.of_nat (length t) <=? total_len)%Z
                       || (length t =? 1));;
     if (max_gen_len <? 0)%Z then ret (Some (Frame [] [] 0 false))
     else generate torch self model_input (Z.to_nat max_gen_len)
            temperature top_p logprobs) s).
  { intros top_p.
    unfold Llama_generate at 1. unfold bind at 1, assert. rewrite Hb.
    cbn [Nat.leb ret outcome events final app]. fold t msl.
    rewrite Hl'. fold total_len. apply run_eta. }
  destruct (Z.leb_spec 0 total_len) as [H0|H0]; cycle 1.
  { left. do 2 (split; [lia|]). split; [left; lia|]. intros top_p.
    rewrite Hgo. by rewrite bind_torch_check_false. }
  destruct (int64 (pad_id (tokenizer self))) eqn:Hpad; cycle 1.
  { left. do 2 (split; [lia|]). split; [by right; left|]. intros top_p.
    rewrite Hgo. by rewrite bind_torch_check_false. }
  destruct (forallb int64 t) eqn:Ht; cycle 1.
  { left. do 2 (split; [lia|]). split; [by right; right|]. intros top_p.
    rewrite Hgo. rewrite bind_torch_check_true by done.
    by rewrite bind_torch_check_false. }
  destruct (Z.ltb_spec max_gen_len 0) as [Hg|Hg].
  - destruct (decide (length t = 1)) as [H1|H1].
    + right. left. do 2 (split; [lia|]).
      split; [lia|]. split; [done|]. intros top_p.
      rewrite Hgo. do 2 rewrite bind_torch_check_true by done.
      rewrite bind_torch_check_true; [done|].
      apply orb_true_iff. right. by apply Nat.eqb_eq.
    + left. do 2 (split; [lia|]). split; [by left|]. intros top_p.
      rewrite Hgo. do 2 rewrite bind_torch_check_true by done.
      rewrite bind_torch_check_false; [done|].
      apply orb_false_iff. split; [apply Z.leb_gt; lia|by apply Nat.eqb_neq].
  - right. right. do 2 (split; [lia|]). do 3 (split; [done|]). intros top_p.
    rewrite Hgo. do 2 rewrite bind_torch_check_true by done.
    rewrite bind_torch_check_true; [done|].
    apply orb_true_iff. left. apply Z.leb_le. lia.
Qed.

End CallFacts.

Section CallClaims.

Context {rng cache Message ToolPromptFormat CompletionMessage : Type}.
Variable torch : Torch rng.
Variable self : Llama cache Message ToolPromptFormat CompletionMessage.



Variables (model_input : ModelInput) (max_gen_len : Z)
          (temperature : Q) (logprobs : bool).

(** C3 (as amended). For every prompt and every integer budget the
    call yields at most [total_len - prompt_len] results, and none
    when this difference is negative.  A call that ends without an
    exception and with fewer results than that has set up its buffer
    and has as its last result a stop token, stored at the last visited
    position, which lies outside the prompt and is not covered by the
    prompt mask, and the stop flag it raised ended the loop there. *)
Theorem yields_within_budget (top_p : Q) (s : sys rng cache) :
  let r := Llama_generate torch self model_input max_gen_len temperature
             top_p logprobs s in
  let t := ModelInput_tokens model_input in
  let total :=
    Z.min (max_gen_len + Z.of_nat (length t))
          (Z.of_nat (max_seq_len (params (model self)))) in
  let n := length (yields (events r)) in
  (Z.of_nat n <= Z.max 0 (total - Z.of_nat (length t)))%Z /\
  (forall o,
      outcome r = Ok o ->
      (Z.of_nat n < total - Z.of_nat (length t))%Z ->
      exists fr tr,
        o = Some fr /\
        last (yields (events r)) = Some tr /\
        TokenResult.token tr ∈ stop_tokens (tokenizer self) /\
        0 < n /\
        tokens fr !! (length t + (n - 1)) = Some (TokenResult.token tr) /\
        (text_mask (pad_id (tokenizer self))
           (initial_tokens self t (Z.to_nat max_gen_len))
           !!! (length t + (n - 1)) : bool) = false /\
        eos_reached fr = true).
Proof.
  intros r t total n. subst r n t total.
  destruct (Llama_generate_cases torch self model_input max_gen_len
              temperature logprobs s)
    as [[Hb Hr]|[(Hb & Hl & Hr)|[(Hb & Hl & _ & Hr)
       |[(Hb & Hl & Hg & H1 & Hr)|(Hb & Hl & Hg & _ & _ & Hr)]]]];
    rewrite (Hr top_p); cbn [outcome events].
  - split; [simpl; lia | done].
  - split; [simpl; lia|]. simpl. intros o _ Hn. lia.
  - split; [simpl; lia | done].
  - split; [simpl; lia|]. simpl. intros o _ Hn. lia.
  - pose proof (generate_yield_bound torch self model_input
                  (Z.to_nat max_gen_len) temperature top_p logprobs s)
      as [Hle Hstop].
    cbv zeta in Hle, Hstop. unfold total_len in Hle, Hstop.
    split; [lia|].
    intros o Ho Hn.
    destruct o as [fr|].
    + destruct (Hstop fr Ho ltac:(lia)) as (tr & H). by exists fr, tr.
    + exfalso. revert Ho.
      destruct (generate_cases torch self model_input (Z.to_nat max_gen_len)
                  temperature top_p logprobs s)
        as [?|? Hl'|? ? ? ? ? ?|r ? ? ? ?]; cbn [outcome]; try done.
      * lia.
      * by destruct (outcome r).
Qed.


End CallClaims.

(** ** The claims about the call on concrete runs *)

(** C3 as amended, on the run that stops early: two results where five
    were allowed, the second one the stop token 3. *)
Lemma yields_within_budget_witness :
  let r := Llama_generate Toy.torch (Toy.llama 10 1)
             {| ModelInput_tokens := [0; 1]%Z |} 5 (6#10) (9#10) false
             Toy.s0 in
  length (yields (events r)) = 2 /\
  exists tr, last (yields (events r)) = Some tr /\
             TokenResult.token tr ∈ stop_tokens Toy.tok.
Proof.
  intros r. split; [reflexivity|].
  destruct (yields_within_budget Toy.torch (Toy.llama 10 1)
              {| ModelInput_tokens := [0; 1]%Z |} 5 (6#10) false (9#10)
              Toy.s0) as [_ H].
  destruct (H _ ltac:(vm_compute; reflexivity) ltac:(vm_compute; reflexivity))
    as (fr & tr & _ & Hlast & Hstop & _).
  exists tr. split; [exact Hlast | exact Hstop].
Defined.

(** C3 as stated fails twice.  With the budget -1 the bound
    [total_len - prompt_len] is -1: the set-up of the buffer raises and
    the number of results, zero, is above the bound.  With [top_p = -1]
    every entry is excluded and the draw is refused: the call raises
    after its first forward pass with no result, where five were
    allowed, and no stop token was produced. *)
Lemma early_end_without_stop_token :
  let input := {| ModelInput_tokens := [0; 1]%Z |} in
  let r1 := Llama_generate Toy.torch (Toy.llama 10 1) input (-1) (6#10)
              (9#10) false Toy.s0 in
  let r2 := Llama_generate Toy.torch (Toy.llama 10 1) input 5 (6#10)
              (-1) false Toy.s0 in
  (outcome r1 = Raise RuntimeError /\ events r1 = [] /\
   (Z.min (-1 + 2) 10 - 2 < Z.of_nat (length (yields (events r1))))%Z) /\
  (outcome r2 = Raise RuntimeError /\
   forward_calls (events r2) = [([0; 1]%Z, 0)] /\
   yields (events r2) = [] /\
   (Z.of_nat (length (yields (events r2))) < Z.min (5 + 2) 10 - 2)%Z).
Proof.
  vm_compute. repeat split.
Qed.


